(** * simpledb: slotted page and weak-reference LRU cache

    A shallow embedding of [include/page.hpp] and [lru.hpp].

    - [Page]: the slotted page.  The header fields and every [size_t]
      intermediate are integers in [Z] with the C++ wrap-around written out;
      [m_data] is a list of bytes; integers stored in the buffer through
      [reinterpret_cast<intra_offset_t *>] are read and written as
      little-endian byte groups.
    - [Lru]: the cache.  [std::shared_ptr] / [std::weak_ptr] are modelled by
      object identities with a count of external strong owners; the
      [std::list] nodes carry identities so that stored iterators can dangle.
      An identity is given to one node only: it stands for the iterator as
      the language defines it, which stays invalid once its node is erased,
      whatever address a later node is allocated at.

    An access outside [m_data], [pop_back] on an empty list and a [splice]
    through an iterator that designates no node are undefined behaviour in
    C++; the embedding reports these three, and nothing else, as the outcome
    [Undefined].  The alignment and the effective type of the
    [intra_offset_t] accesses made through [reinterpret_cast] are not
    modelled: such an access that lies inside [m_data] has the byte-wise
    result given here. *)

From Stdlib Require Import ZArith List Lia.
From Stdlib Require Import Strings.Byte Strings.String.
From coqutil Require Import Byte Word.LittleEndianList.
From stdpp Require Import gmap list.

Local Open Scope Z_scope.

(** ** Outcomes of a member function *)

Inductive exn : Type :=
| bad_alloc      (* std::bad_alloc *)
| out_of_range.  (* std::out_of_range *)

Inductive outcome (A : Type) : Type :=
| Ok (a : A)
| Throw (e : exn)
| Undefined.

Arguments Ok {A} a.
Arguments Throw {A} e.
Arguments Undefined {A}.

(** ** Byte buffers *)

Abbreviation byte := Init.Byte.byte.

(** Conversion of an integer to [size_t] (64-bit). *)
Definition to_size_t (z : Z) : Z := z mod 2 ^ 64.

(** Reading [n] bytes at byte offset [off] of a buffer; [None] when the range
    leaves the buffer. *)
Definition load_bytes (m : list byte) (off n : Z) : option (list byte) :=
  if (0 <=? off) && (0 <=? n) && (off + n <=? Z.of_nat (length m))
  then Some (take (Z.to_nat n) (drop (Z.to_nat off) m))
  else None.

(** Writing the bytes [bs] at byte offset [off] of a buffer; [None] when the
    range leaves the buffer. *)
Definition store_bytes (m : list byte) (off : Z) (bs : list byte)
  : option (list byte) :=
  if (0 <=? off) && (off + Z.of_nat (length bs) <=? Z.of_nat (length m))
  then Some (take (Z.to_nat off) m ++ bs
               ++ drop (Z.to_nat off + length bs) m)
  else None.

(** An unsigned integer of [w] bytes read from, or written to, the buffer. *)
Definition load_uint (w : Z) (m : list byte) (off : Z) : option Z :=
  le_combine <$> load_bytes m off w.

Definition store_uint (w : Z) (m : list byte) (off : Z) (v : Z)
  : option (list byte) :=
  store_bytes m off (le_split (Z.to_nat w) v).

Module Page.

Section WithPageSize.

(** The template parameter. *)
Variable PageSize : Z.

(** [sizeof(intra_offset_t)]:
    [std::conditional_t<page_size <= 16384, uint16_t, uint32_t>]. *)
Definition offset_width : Z := if PageSize <=? 16384 then 2 else 4.

(** [static_cast<intra_offset_t>]. *)
Definition to_offset (z : Z) : Z := z mod 2 ^ (8 * offset_width).

Record header : Type := mk_header {
  free_region_start : Z;
  free_region_end : Z
}.

Definition sizeof_header : Z := 2 * offset_width.

(** [data_size = PageSize - sizeof(header)], a [size_t]. *)
Definition data_size : Z := to_size_t (PageSize - sizeof_header).

Record page : Type := mk_page {
  m_header : header;
  m_data : list byte
}.

(** [page()]: only the header is initialised; the buffer keeps whatever
    bytes [garbage] the storage held. *)
Definition page_ctor (garbage : list byte) : page :=
  mk_page (mk_header (to_offset sizeof_header) (to_offset data_size))
          garbage.

Definition size (p : page) : Z :=
  to_size_t (free_region_start (m_header p) - sizeof_header)
    / offset_width.

Definition empty (p : page) : bool := size p =? 0.

Definition contains (p : page) (index : Z) : bool := index <? size p.

(** [free_region_end - free_region_start]: two [uint16_t] are promoted to
    [int] and the difference converted to [size_t]; two [uint32_t] are
    subtracted modulo 2^32. *)
Definition free_space (p : page) : Z :=
  let d := free_region_end (m_header p) - free_region_start (m_header p) in
  if offset_width =? 2 then to_size_t d else d mod 2 ^ 32.

Definition fits (p : page) (n : Z) : bool := n <=? free_space p.

Definition clear (p : page) : page :=
  mk_page (mk_header (to_offset sizeof_header) (to_offset PageSize))
          (m_data p).

(** [insert(std::string_view)]. *)
Definition insert (p : page) (data : list byte) : outcome Z * page :=
  let len := Z.of_nat (length data) in
  if negb (fits p (to_size_t (len + offset_width + 2)))
  then (Throw bad_alloc, p)
  else
    let start :=
      to_size_t (free_region_end (m_header p) - len - offset_width) in
    match store_uint offset_width (m_data p) start (to_offset len) with
    | None => (Undefined, p)
    | Some d1 =>
      match store_bytes d1 (start + offset_width) data with
      | None => (Undefined, p)
      | Some d2 =>
        let current_entry := size p in
        match store_uint offset_width d2 (current_entry * offset_width)
                         (to_offset start) with
        | None => (Undefined, p)
        | Some d3 =>
          (Ok current_entry,
           mk_page
             (mk_header
                (to_offset (free_region_start (m_header p) + offset_width))
                (to_offset start))
             d3)
        end
      end
    end.

(** [size_and_offset_of]: the record's length prefix and the byte offset of
    its payload (the pointer [data_ptr + 1]). *)
Definition size_and_offset_of (p : page) (index : Z) : option (Z * Z) :=
  data_offset ← load_uint offset_width (m_data p) (index * offset_width);
  sz ← load_uint offset_width (m_data p) data_offset;
  Some (sz, data_offset + offset_width).

(** [at(index)]: the bytes the returned view covers.  ([at] is a keyword,
    hence the name.) *)
Definition at_ (p : page) (index : Z) : outcome (list byte) :=
  if negb (contains p index) then Throw out_of_range
  else
    match size_and_offset_of p index with
    | None => Undefined
    | Some (sz, off) =>
      match load_bytes (m_data p) off sz with
      | None => Undefined
      | Some bs => Ok bs
      end
    end.

(** *** Stream operators

    An output stream is the sequence of bytes written so far.  An input
    stream is the bytes still to be read and its fail bit:
    [istream::read] stores the bytes it could extract, sets the fail bit
    when there were fewer than asked for, and extracts nothing once the
    bit is set. *)

Record istream : Type := mk_istream {
  is_bytes : list byte;
  is_fail : bool
}.

Definition is_read (s : istream) (n : Z) : list byte * istream :=
  if is_fail s then ([], s)
  else
    let got := take (Z.to_nat n) (is_bytes s) in
    (got, mk_istream (drop (Z.to_nat n) (is_bytes s))
                     (Z.of_nat (length got) <? n)).

(** The bytes extracted replace the front of the destination storage. *)
Definition overwrite (dst got : list byte) : list byte :=
  got ++ drop (length got) dst.

(** The object representation of [header]: the two fields in order. *)
Definition header_bytes (h : header) : list byte :=
  le_split (Z.to_nat offset_width) (free_region_start h)
    ++ le_split (Z.to_nat offset_width) (free_region_end h).

Definition header_of_bytes (bs : list byte) : header :=
  mk_header (le_combine (take (Z.to_nat offset_width) bs))
            (le_combine (drop (Z.to_nat offset_width) bs)).

(** [operator<<]. *)
Definition write_page (os : list byte) (p : page) : list byte :=
  (os ++ header_bytes (m_header p)) ++ m_data p.

(** [operator>>]. *)
Definition read_page (s : istream) (p : page) : istream * page :=
  let '(hb, s1) := is_read s sizeof_header in
  let h := header_of_bytes (overwrite (header_bytes (m_header p)) hb) in
  let '(db, s2) := is_read s1 (Z.of_nat (length (m_data p))) in
  (s2, mk_page h (overwrite (m_data p) db)).

(** *** Predicates used in the statements *)

(** The header invariant of the data model. *)
Definition header_invariant (p : page) : Prop :=
  0 <= free_region_start (m_header p)
  /\ free_region_start (m_header p) <= free_region_end (m_header p)
  /\ free_region_end (m_header p) <= data_size.

(** [built p ds]: [p] is a freshly constructed page into which the records
    [ds] were inserted in order, every insert returning normally. *)
Inductive built : page -> list (list byte) -> Prop :=
| built_ctor garbage :
    Z.of_nat (length garbage) = data_size ->
    built (page_ctor garbage) []
| built_insert p ds d i p' :
    built p ds ->
    insert p d = (Ok i, p') ->
    built p' (ds ++ [d]).

(** [page_ok p ds]: the layout a page holding the records [ds] has when
    its offsets are two bytes wide.  Offset entry [i] occupies bytes
    [2i, 2i+2) of the buffer; it designates a length prefix followed by the
    payload, both inside the record area [free_region_end, data_size). *)
Record page_ok (p : page) (ds : list (list byte)) : Prop := {
  ok_length : Z.of_nat (length (m_data p)) = data_size;
  ok_start :
    free_region_start (m_header p) = 4 + 2 * Z.of_nat (length ds);
  ok_order : free_region_start (m_header p) <= free_region_end (m_header p);
  ok_end : free_region_end (m_header p) <= data_size;
  ok_records :
    forall (i : nat) d, ds !! i = Some d ->
      exists off,
        load_uint 2 (m_data p) (2 * Z.of_nat i) = Some off
        /\ free_region_end (m_header p) <= off
        /\ off + 2 + Z.of_nat (length d) <= data_size
        /\ load_uint 2 (m_data p) off = Some (Z.of_nat (length d))
        /\ load_bytes (m_data p) (off + 2) (Z.of_nat (length d)) = Some d
}.

(** A page object as the type allows it: a buffer of [data_size] bytes and
    header fields that are values of [intra_offset_t]. *)
Record well_formed (p : page) : Prop := {
  wf_length : Z.of_nat (length (m_data p)) = data_size;
  wf_start : 0 <= free_region_start (m_header p) < 2 ^ (8 * offset_width);
  wf_end : 0 <= free_region_end (m_header p) < 2 ^ (8 * offset_width)
}.

(** *** The mutable [at(index)] and writes through its view *)

(** The non-const [at(index)]: the span it returns, as the byte offset of
    its first element in [m_data] and its length. *)
Definition at_view (p : page) (index : Z) : outcome (Z * Z) :=
  if negb (contains p index) then Throw out_of_range
  else
    match size_and_offset_of p index with
    | None => Undefined
    | Some (sz, off) =>
      match load_bytes (m_data p) off sz with
      | None => Undefined
      | Some _ => Ok (off, sz)
      end
    end.


(** *** Packed pages *)

(** Bytes the record area spends on the records [ds]: each payload and its
    length prefix. *)
Definition used (ds : list (list byte)) : Z :=
  foldr (fun d acc => Z.of_nat (length d) + offset_width + acc) 0 ds.

(** Where record [i] of [ds] starts when the records are laid out downwards
    from the end of the buffer. *)
Definition record_offset (ds : list (list byte)) (i : nat) : Z :=
  data_size - used (take (S i) ds).

(** [packed p ds]: as [built], for a caller that inserts a record only when
    [fits] grants it the payload, its length prefix and its offset entry. *)
Inductive packed : page -> list (list byte) -> Prop :=
| packed_ctor garbage :
    Z.of_nat (length garbage) = data_size ->
    packed (page_ctor garbage) []
| packed_insert p ds d i p' :
    packed p ds ->
    fits p (Z.of_nat (length d) + 2 * offset_width) = true ->
    insert p d = (Ok i, p') ->
    packed p' (ds ++ [d]).

(** The exact layout of a page holding the records [ds], for either offset
    width. *)
Record layout (p : page) (ds : list (list byte)) : Prop := {
  lay_length : Z.of_nat (length (m_data p)) = data_size;
  lay_start :
    free_region_start (m_header p)
    = sizeof_header + offset_width * Z.of_nat (length ds);
  lay_end : free_region_end (m_header p) = data_size - used ds;
  lay_room : free_region_start (m_header p) <= free_region_end (m_header p);
  lay_records :
    forall (i : nat) d, ds !! i = Some d ->
      load_uint offset_width (m_data p) (offset_width * Z.of_nat i)
      = Some (record_offset ds i)
      /\ load_uint offset_width (m_data p) (record_offset ds i)
         = Some (Z.of_nat (length d))
      /\ load_bytes (m_data p) (record_offset ds i + offset_width)
                    (Z.of_nat (length d))
         = Some d
}.

End WithPageSize.

Definition ascii_bytes (s : String.string) : list byte :=
  String.list_byte_of_string s.

End Page.

Module Lru.

(** Identity of a managed object (its control block). *)
Abbreviation obj := nat.

(** [std::shared_ptr<value_type>]; [None] is [nullptr]. *)
Abbreviation pointer := (option obj).

(** [std::weak_ptr<value_type>]; [None] is the empty weak pointer. *)
Abbreviation weak_pointer := (option obj).

(** [std::list<pointer>::iterator]: the identity of a list node. *)
Abbreviation list_iterator := nat.

(** What lies outside the cache: how many strong owners each object has
    there, and the next object [std::make_shared] allocates. *)
Record world : Type := mk_world {
  ext : obj -> nat;
  next_obj : obj
}.

Definition release (o : obj) (w : world) : world :=
  mk_world (fun x => if decide (x = o) then pred (ext w x) else ext w x)
           (next_obj w).

Definition acquire (o : obj) (w : world) : world :=
  mk_world (fun x => if decide (x = o) then S (ext w x) else ext w x)
           (next_obj w).

(** [pop_back()]: undefined on an empty list. *)
Definition pop_back {A} (l : list A) : option (list A) :=
  match l with
  | [] => None
  | _ => Some (removelast l)
  end.

(** [l.splice(l.begin(), l, it)]: the node [it] designates is relinked at
    the front; undefined when [it] designates no node of [l]. *)
Definition splice_front {A} (l : list (list_iterator * A))
  (it : list_iterator) : option (list (list_iterator * A)) :=
  match list_find (fun nd => fst nd = it) l with
  | Some (i, nd) => Some (nd :: delete i l)
  | None => None
  end.

Section WithKey.

Context {Key : Type} `{Countable Key}.

Record lru : Type := mk_lru {
  m_list : list (list_iterator * pointer);
  m_map : gmap Key weak_pointer;
  m_iter_map : gmap Key list_iterator;
  m_size : N;
  (** Identity the next allocated list node receives. *)
  next_node : list_iterator
}.

Definition lru_ctor (size : N) : lru := mk_lru [] ∅ ∅ size 0%nat.

(** Strong owners of [o] inside the cache: the list nodes that hold it. *)
Definition list_owners (c : lru) (o : obj) : nat :=
  length (filter (fun nd => snd nd = Some o) (m_list c)).

Definition use_count (w : world) (c : lru) (o : obj) : nat :=
  (ext w o + list_owners c o)%nat.

Definition alive (w : world) (c : lru) (o : obj) : bool :=
  (0 <? use_count w c o)%nat.

(** [weak_ptr::lock()]. *)
Definition lock (w : world) (c : lru) (wp : weak_pointer) : pointer :=
  match wp with
  | Some o => if alive w c o then Some o else None
  | None => None
  end.

(** [insert(key_type, pointer)]. *)
Definition insert (c : lru) (key : Key) (ptr : pointer)
  : outcome unit * lru :=
  let popped :=
    if (m_size c <=? N.of_nat (length (m_list c)))%N
    then pop_back (m_list c)
    else Some (m_list c) in
  match popped with
  | None => (Undefined, c)
  | Some l =>
    let n := next_node c in
    (Ok tt,
     mk_lru ((n, ptr) :: l)
            (<[key := ptr]> (m_map c))
            (<[key := n]> (m_iter_map c))
            (m_size c)
            (S n))
  end.

(** [insert(key_type, value_type &&)]: the fresh object's only owner is
    the temporary, gone when the call returns. *)
Definition insert_value (w : world) (c : lru) (key : Key)
  : outcome unit * (world * lru) :=
  let o := next_obj w in
  let '(r, c') := insert c key (Some o) in
  (r, (mk_world (ext w) (S o), c')).

(** [get(key_type)]. *)
Definition get (w : world) (c : lru) (key : Key)
  : outcome pointer * lru :=
  match m_map c !! key with
  | None => (Ok None, c)
  | Some wp =>
    match lock w c wp with
    | None =>
      (Ok None,
       mk_lru (m_list c) (delete key (m_map c))
              (delete key (m_iter_map c)) (m_size c) (next_node c))
    | Some o =>
      match m_iter_map c !! key with
      | None => (Undefined, c)
      | Some list_iter =>
        match splice_front (m_list c) list_iter with
        | None => (Undefined, c)
        | Some l =>
          (Ok (Some o),
           mk_lru l (m_map c) (m_iter_map c) (m_size c) (next_node c))
        end
      end
    end
  end.

(** A client's script against one cache. *)
Inductive op : Type :=
| OInsert (key : Key) (ptr : pointer)
| OInsertValue (key : Key)
| OGet (key : Key)
| ORelease (o : obj)
| OAcquire (o : obj).

Definition step (s : world * lru) (a : op) : option (world * lru) :=
  let '(w, c) := s in
  match a with
  | OInsert key ptr =>
    match insert c key ptr with
    | (Ok _, c') => Some (w, c')
    | _ => None
    end
  | OInsertValue key =>
    match insert_value w c key with
    | (Ok _, s') => Some s'
    | _ => None
    end
  | OGet key =>
    match get w c key with
    | (Ok _, c') => Some (w, c')
    | _ => None
    end
  | ORelease o => Some (release o w, c)
  | OAcquire o => Some (acquire o w, c)
  end.

Fixpoint run (s : world * lru) (ops : list op) : option (world * lru) :=
  match ops with
  | [] => Some s
  | a :: ops' =>
    match step s a with
    | Some s' => run s' ops'
    | None => None
    end
  end.

(** *** Predicates used in the statements *)

(** What every operation keeps of the bookkeeping of a cache constructed
    with capacity [cap]. *)
Definition bookkeeping (cap : N) (c : lru) : Prop :=
  m_size c = cap
  /\ (N.of_nat (length (m_list c)) <= cap)%N
  /\ dom (m_map c) = dom (m_iter_map c).

(** How the stored positions relate to the list: node identities are
    never reused, no two keys store the same position, and a node still in
    the list that a key's stored position designates holds the pointer the
    key's weak reference was made from. *)
Definition positions_ok (c : lru) : Prop :=
  NoDup (fst <$> m_list c)
  /\ (forall n p, (n, p) ∈ m_list c -> (n < next_node c)%nat)
  /\ (forall k n, m_iter_map c !! k = Some n -> (n < next_node c)%nat)
  /\ (forall k k' n,
        m_iter_map c !! k = Some n -> m_iter_map c !! k' = Some n -> k = k')
  /\ (forall k n p,
        m_iter_map c !! k = Some n -> (n, p) ∈ m_list c ->
        m_map c !! k = Some p).

(** Some node of [l] holds a strong reference to [o]. *)
Definition held_in (l : list (list_iterator * pointer)) (o : obj) : Prop :=
  Exists (fun nd => snd nd = Some o) l.

(** An operation that inserts under a key other than [key]. *)
Definition inserts_other (key : Key) (a : op) : Prop :=
  match a with
  | OInsert key' _ => key' <> key
  | OInsertValue key' => key' <> key
  | _ => False
  end.

End WithKey.

Definition world0 : world := mk_world (fun _ => 0%nat) 0%nat.

(** The list after [m] inserts by value into a new cache, the first object
    being [b]: the nodes of the last [len] inserts, the latest in front;
    insert number [j] made node [j], holding object [b + j]. *)
Definition recent (b m len : nat) : list (list_iterator * pointer) :=
  (fun j => (j, Some (b + j)%nat)) <$> rev (seq (m - len) len).

End Lru.

(** * Facts about byte buffers *)

Section Buffers.

Implicit Types (m bs : list byte) (off n : Z).

Lemma store_bytes_Some m off bs m' :
  store_bytes m off bs = Some m' ->
  0 <= off /\ off + Z.of_nat (length bs) <= Z.of_nat (length m) /\
  m' = take (Z.to_nat off) m ++ bs ++ drop (Z.to_nat off + length bs) m.
Proof.
  unfold store_bytes. intros Hs.
  destruct (0 <=? off) eqn:E1; simpl in Hs; [|discriminate].
  destruct (off + Z.of_nat (length bs) <=? Z.of_nat (length m)) eqn:E2;
    [|discriminate].
  injection Hs as <-. apply Z.leb_le in E1, E2. auto.
Qed.


Lemma store_bytes_length m off bs m' :
  store_bytes m off bs = Some m' -> length m' = length m.
Proof.
  intros (H0 & H1 & ->)%store_bytes_Some.
  rewrite !length_app, length_take, length_drop. lia.
Qed.

(** The byte at position [i] after a store. *)
Lemma store_bytes_lookup m off bs m' (i : nat) :
  store_bytes m off bs = Some m' ->
  m' !! i =
  if decide (Z.to_nat off <= i < Z.to_nat off + length bs)%nat
  then bs !! (i - Z.to_nat off)%nat
  else m !! i.
Proof.
  intros (H0 & H1 & ->)%store_bytes_Some.
  assert (Ht : length (take (Z.to_nat off) m) = Z.to_nat off)
    by (rewrite length_take; lia).
  destruct (decide _) as [Hin|Hout].
  - rewrite lookup_app_r by lia. rewrite Ht.
    rewrite lookup_app_l by lia. reflexivity.
  - destruct (decide (i < Z.to_nat off)%nat) as [Hlt|Hge].
    + rewrite lookup_app_l by lia. now rewrite lookup_take_lt by lia.
    + rewrite lookup_app_r by lia. rewrite Ht.
      rewrite lookup_app_r by lia. rewrite lookup_drop. f_equal. lia.
Qed.


Lemma load_bytes_in_range m off n :
  0 <= off -> 0 <= n -> off + n <= Z.of_nat (length m) ->
  load_bytes m off n = Some (take (Z.to_nat n) (drop (Z.to_nat off) m)).
Proof.
  intros H1 H2 H3. unfold load_bytes.
  apply Z.leb_le in H1, H2, H3. now rewrite H1, H2, H3.
Qed.

(** Two buffers of one length that agree on a range load the same bytes
    from it. *)
Lemma load_bytes_ext m m' off n :
  length m = length m' ->
  (forall i : nat, (Z.to_nat off <= i < Z.to_nat off + Z.to_nat n)%nat ->
                   m' !! i = m !! i) ->
  load_bytes m' off n = load_bytes m off n.
Proof.
  intros Hlen Hagree. unfold load_bytes. rewrite Hlen.
  destruct (_ && _); [|reflexivity]. f_equal.
  apply list_eq. intros i.
  destruct (decide (i < Z.to_nat n)%nat) as [Hlt|Hge].
  - rewrite !lookup_take_lt, !lookup_drop by lia. apply Hagree. lia.
  - now rewrite !lookup_take_ge by lia.
Qed.

(** A load that misses the stored range sees the old bytes. *)
Lemma load_store_disjoint m off bs m' o n :
  store_bytes m off bs = Some m' ->
  0 <= o -> 0 <= n ->
  o + n <= off \/ off + Z.of_nat (length bs) <= o ->
  load_bytes m' o n = load_bytes m o n.
Proof.
  intros Hs Ho Hn Hd.
  pose proof (store_bytes_Some _ _ _ _ Hs) as (H0 & H1 & _).
  apply load_bytes_ext.
  - symmetry. eapply store_bytes_length, Hs.
  - intros i Hi. rewrite (store_bytes_lookup _ _ _ _ i Hs).
    destruct (decide _); [lia|reflexivity].
Qed.

(** A load of exactly the stored range returns the stored bytes. *)
Lemma load_store_same m off bs m' :
  store_bytes m off bs = Some m' ->
  load_bytes m' off (Z.of_nat (length bs)) = Some bs.
Proof.
  intros Hs.
  pose proof (store_bytes_Some _ _ _ _ Hs) as (H0 & H1 & _).
  pose proof (store_bytes_length _ _ _ _ Hs) as Hlen.
  rewrite load_bytes_in_range by lia. f_equal.
  apply list_eq. intros i. rewrite Nat2Z.id.
  destruct (decide (i < length bs)%nat) as [Hlt|Hge].
  - rewrite lookup_take_lt, lookup_drop by lia.
    rewrite (store_bytes_lookup _ _ _ _ _ Hs).
    destruct (decide _); [f_equal; lia|lia].
  - rewrite lookup_take_ge by lia. symmetry.
    apply lookup_ge_None_2. lia.
Qed.


Lemma load_store_uint_same (w : Z) m off v m' :
  0 <= w ->
  store_uint w m off v = Some m' ->
  load_uint w m' off = Some (v mod 2 ^ (8 * w)).
Proof.
  unfold store_uint, load_uint. intros Hw Hs.
  pose proof (load_store_same _ _ _ _ Hs) as Hl.
  rewrite length_le_split, Z2Nat.id in Hl by lia.
  rewrite Hl. simpl. rewrite le_combine_split.
  do 3 f_equal. lia.
Qed.

Lemma load_uint_store_disjoint (w : Z) m off bs m' o :
  store_bytes m off bs = Some m' ->
  0 <= o -> 0 <= w ->
  o + w <= off \/ off + Z.of_nat (length bs) <= o ->
  load_uint w m' o = load_uint w m o.
Proof.
  intros Hs Ho Hw Hd. unfold load_uint.
  now rewrite (load_store_disjoint _ _ _ _ _ _ Hs Ho Hw Hd).
Qed.

Lemma load_store_uint_disjoint (w : Z) m off v m' o n :
  store_uint w m off v = Some m' ->
  0 <= w -> 0 <= o -> 0 <= n ->
  o + n <= off \/ off + w <= o ->
  load_bytes m' o n = load_bytes m o n.
Proof.
  unfold store_uint. intros Hs Hw Ho Hn Hd.
  eapply load_store_disjoint; eauto.
  rewrite length_le_split. lia.
Qed.

Lemma load_uint_store_uint_disjoint (w w' : Z) m off v m' o :
  store_uint w m off v = Some m' ->
  0 <= w -> 0 <= o -> 0 <= w' ->
  o + w' <= off \/ off + w <= o ->
  load_uint w' m' o = load_uint w' m o.
Proof.
  intros Hs Hw Ho Hw' Hd. unfold load_uint.
  now rewrite (load_store_uint_disjoint _ _ _ _ _ _ _ Hs Hw Ho Hw' Hd).
Qed.

End Buffers.

(** * The page *)

Module PageFacts.

Import Page.

(** Unfolds the integer conversions and hands linear goals over [Z] with
    [mod] and [/] by constants to [lia]. *)
Ltac zsolve :=
  unfold to_size_t in *;
  change (2 ^ 64) with 18446744073709551616 in *;
  change (2 ^ 32) with 4294967296 in *;
  change (2 ^ 16) with 65536 in *;
  Z.div_mod_to_equations; lia.

(** The scenarios of [tests/test_page.cpp] on [page<128>]. *)
Example page128_scenario :
  let p0 := page_ctor 128 (repeat x00 124) in
  let '(r1, p1) := insert 128 p0 (ascii_bytes "Hello") in
  let '(r2, p2) := insert 128 p1 (ascii_bytes "World") in
  r1 = Ok 0 /\ r2 = Ok 1 /\ size 128 p2 = 2 /\
  at_ 128 p2 0 = Ok (ascii_bytes "Hello") /\
  at_ 128 p2 1 = Ok (ascii_bytes "World") /\
  fits 128 p0 50 = true /\ fits 128 p0 200 = false /\
  at_ 128 p0 0 = Throw out_of_range /\
  fst (insert 128 p0 (repeat x61 128)) = Throw bad_alloc.
Proof. vm_compute. repeat split. Qed.

Example page128_stream :
  let p0 := page_ctor 128 (repeat x00 124) in
  let p1 := snd (insert 128 p0 (ascii_bytes "Hello")) in
  let p2 := snd (insert 128 p1 (ascii_bytes "World")) in
  Z.of_nat (length (write_page 128 [] p2)) = 128 /\
  snd (read_page 128 (mk_istream (write_page 128 [] p2) false)
                 (page_ctor 128 (repeat x01 124))) = p2.
Proof. vm_compute. repeat split. Qed.

(** ** Pages with two-byte offsets *)

Section TwoByteOffsets.

Variable PageSize : Z.
Hypothesis Hmin : 4 <= PageSize.
Hypothesis Hmax : PageSize <= 16384.

Lemma offset_width_2 : offset_width PageSize = 2.
Proof. unfold offset_width. now apply Z.leb_le in Hmax as ->. Qed.

Lemma sizeof_header_4 : sizeof_header PageSize = 4.
Proof. unfold sizeof_header. now rewrite offset_width_2. Qed.

Lemma data_size_2 : data_size PageSize = PageSize - 4.
Proof. unfold data_size. rewrite sizeof_header_4. zsolve. Qed.

Lemma to_offset_2 z : to_offset PageSize z = z mod 65536.
Proof. unfold to_offset. now rewrite offset_width_2. Qed.

Lemma free_space_2 p :
  free_space PageSize p
  = to_size_t (free_region_end (m_header p)
               - free_region_start (m_header p)).
Proof. unfold free_space. now rewrite offset_width_2. Qed.

Lemma size_2 p :
  size PageSize p
  = to_size_t (free_region_start (m_header p) - 4) / 2.
Proof. unfold size. now rewrite sizeof_header_4, offset_width_2. Qed.

(** What a normally returning [insert] did, step by step. *)
Lemma insert_Ok_inv p data i p' :
  insert PageSize p data = (Ok i, p') ->
  let len := Z.of_nat (length data) in
  let start := to_size_t (free_region_end (m_header p) - len - 2) in
  exists d1 d2 d3,
    fits PageSize p (to_size_t (len + 4)) = true
    /\ store_uint 2 (m_data p) start (len mod 65536) = Some d1
    /\ store_bytes d1 (start + 2) data = Some d2
    /\ store_uint 2 d2 (size PageSize p * 2) (start mod 65536) = Some d3
    /\ i = size PageSize p
    /\ p' = mk_page
              (mk_header
                 ((free_region_start (m_header p) + 2) mod 65536)
                 (start mod 65536))
              d3.
Proof.
  unfold insert. rewrite !to_offset_2, !offset_width_2.
  replace (Z.of_nat (length data) + 2 + 2)
    with (Z.of_nat (length data) + 4) by lia.
  destruct (fits _ _ _) eqn:Hfits; simpl; [|discriminate].
  destruct (store_uint 2 (m_data p) _ _) as [d1|] eqn:E1; [|discriminate].
  destruct (store_bytes d1 _ data) as [d2|] eqn:E2; [|discriminate].
  destruct (store_uint 2 d2 _ _) as [d3|] eqn:E3; [|discriminate].
  intros [= <- <-]. exists d1, d2, d3. auto 10.
Qed.

(** The arithmetic of a normally returning [insert] on a well-formed
    page: no conversion wrapped, and every store stayed in the buffer. *)
Lemma insert_Ok_arith p data i p' :
  well_formed PageSize p ->
  insert PageSize p data = (Ok i, p') ->
  let len := Z.of_nat (length data) in
  let frs := free_region_start (m_header p) in
  let fre := free_region_end (m_header p) in
  4 <= frs /\ frs <= PageSize - 1
  /\ 0 <= fre - len - 2 /\ fre <= PageSize - 4
  /\ len + 4 <= free_space PageSize p
  /\ i = (frs - 4) / 2
  /\ m_header p' = mk_header (frs + 2) (fre - len - 2)
  /\ Z.of_nat (length (m_data p')) = PageSize - 4.
Proof.
  intros [Hlen Hs He] Hins. rewrite offset_width_2 in Hs, He.
  rewrite data_size_2 in Hlen.
  change (2 ^ (8 * 2)) with 65536 in *.
  apply insert_Ok_inv in Hins as (d1 & d2 & d3 & Hf & E1 & E2 & E3 & -> & ->).
  unfold fits in Hf. apply Z.leb_le in Hf.
  pose proof (store_bytes_length _ _ _ _ E1) as L1.
  pose proof (store_bytes_length _ _ _ _ E2) as L2.
  pose proof (store_bytes_length _ _ _ _ E3) as L3.
  apply store_bytes_Some in E1 as (A1 & B1 & _).
  apply store_bytes_Some in E2 as (A2 & B2 & _).
  apply store_bytes_Some in E3 as (A3 & B3 & _).
  rewrite length_le_split in B1, B3.
  rewrite size_2 in *. rewrite free_space_2 in *.
  cbn [m_header m_data free_region_start free_region_end].
  pose proof (Zle_0_nat (length data)) as Hlen0.
  generalize dependent (Z.of_nat (length data)). intros len **.
  generalize dependent (free_region_start (m_header p)). intros frs **.
  generalize dependent (free_region_end (m_header p)). intros fre **.
  change (Z.of_nat (Z.to_nat 2)) with 2 in *.
  assert (Hfrs : 4 <= frs /\ frs <= PageSize - 1) by zsolve.
  assert (Hfre : 0 <= fre - len - 2 /\ fre <= PageSize - 4) by zsolve.
  repeat split; try lia; try zsolve.
  f_equal; zsolve.
Qed.

Lemma insert_well_formed p data i p' :
  well_formed PageSize p ->
  insert PageSize p data = (Ok i, p') ->
  well_formed PageSize p'.
Proof.
  intros Hwf Hins.
  destruct (insert_Ok_arith _ _ _ _ Hwf Hins)
    as (H1 & H2 & H3 & H4 & _ & _ & Hh & Hl).
  pose proof (Zle_0_nat (length data)).
  split; rewrite ?offset_width_2, ?data_size_2, ?Hh; simpl;
    change (2 ^ 16) with 65536; lia.
Qed.

(** Page monotonicity, for two-byte offsets: a successful [insert] takes
    exactly the payload, its length prefix and one offset entry out of the
    free space, and adds one record. *)
Lemma insert_free_space_2 p data i p' :
  well_formed PageSize p ->
  insert PageSize p data = (Ok i, p') ->
  free_space PageSize p'
  = free_space PageSize p
    - (Z.of_nat (length data) + 2 * offset_width PageSize)
  /\ size PageSize p' = size PageSize p + 1.
Proof.
  intros Hwf Hins.
  destruct (insert_Ok_arith _ _ _ _ Hwf Hins)
    as (H1 & H2 & H3 & H4 & H5 & _ & Hh & _).
  destruct Hwf as [_ Hs He]. rewrite offset_width_2 in *.
  change (2 ^ (8 * 2)) with 65536 in *.
  rewrite !free_space_2, !size_2 in *. rewrite Hh. simpl.
  pose proof (Zle_0_nat (length data)).
  split; zsolve.
Qed.

(** The out-of-space test, for two-byte offsets: [insert] throws exactly
    when the payload with its length prefix and offset entry exceeds the
    free space, and then leaves the page as it was. *)
Lemma insert_bad_alloc_2 p data :
  Z.of_nat (length data) + 4 < 2 ^ 64 ->
  (fst (insert PageSize p data) = Throw bad_alloc
   <-> free_space PageSize p
       < Z.of_nat (length data) + offset_width PageSize
         + offset_width PageSize)
  /\ (fst (insert PageSize p data) = Throw bad_alloc ->
      snd (insert PageSize p data) = p).
Proof.
  intros Hsmall. pose proof (Zle_0_nat (length data)).
  unfold insert, fits. rewrite !offset_width_2.
  replace (to_size_t (Z.of_nat (length data) + 2 + 2))
    with (Z.of_nat (length data) + 2 + 2) by zsolve.
  destruct (_ <=? _) eqn:Hle; simpl.
  - apply Z.leb_le in Hle. split.
    + split; [|lia].
      destruct (store_uint _ _ _ _); [|discriminate].
      destruct (store_bytes _ _ _); [|discriminate].
      destruct (store_uint _ _ _ _); discriminate.
    + destruct (store_uint _ _ _ _); [|discriminate].
      destruct (store_bytes _ _ _); [|discriminate].
      destruct (store_uint _ _ _ _); discriminate.
  - apply Z.leb_gt in Hle. split; [split; [lia|reflexivity]|reflexivity].
Qed.

(** *** The layout invariant *)

Hypothesis Hroom : 8 <= PageSize.

Lemma page_ok_well_formed p ds :
  page_ok PageSize p ds -> well_formed PageSize p.
Proof.
  intros [Hl Hs Ho He _]. rewrite data_size_2 in *.
  split; rewrite ?offset_width_2, ?data_size_2;
    change (2 ^ (8 * 2)) with 65536; lia.
Qed.

Lemma page_ok_ctor garbage :
  Z.of_nat (length garbage) = data_size PageSize ->
  page_ok PageSize (page_ctor PageSize garbage) [].
Proof.
  intros Hg. unfold page_ctor. rewrite data_size_2 in Hg.
  split; cbn [m_header m_data free_region_start free_region_end length];
    rewrite ?to_offset_2, ?sizeof_header_4, ?data_size_2; try zsolve.
  intros i d Hd. rewrite lookup_nil in Hd. discriminate.
Qed.

Lemma page_ok_size p ds :
  page_ok PageSize p ds -> size PageSize p = Z.of_nat (length ds).
Proof.
  intros [_ Hs Ho He _]. rewrite data_size_2 in He.
  rewrite size_2. zsolve.
Qed.

(** [insert] keeps the layout: the three stores fall in the free region
    (and in the slack below [free_region_start]), so the offset entries
    and the records written before are not touched. *)
Lemma page_ok_insert p ds data i p' :
  page_ok PageSize p ds ->
  insert PageSize p data = (Ok i, p') ->
  page_ok PageSize p' (ds ++ [data]) /\ i = Z.of_nat (length ds).
Proof.
  intros Hok Hins.
  pose proof (page_ok_well_formed _ _ Hok) as Hwf.
  pose proof (page_ok_size _ _ Hok) as Hsz.
  destruct (insert_Ok_arith _ _ _ _ Hwf Hins)
    as (H1 & H2 & H3 & H4 & H5 & Hi & Hh & Hl).
  apply insert_Ok_inv in Hins
    as (d1 & d2 & d3 & _ & E1 & E2 & E3 & _ & ->).
  destruct Hok as [Hlen Hs Ho He Hrec]. rewrite data_size_2 in *.
  rewrite free_space_2 in H5. rewrite Hsz in E3.
  pose proof (Zle_0_nat (length data)) as Hd0.
  pose proof (Zle_0_nat (length ds)) as Hn0.
  cbn [m_header m_data] in Hh. injection Hh as Hfrs' Hfre'.
  set (len := Z.of_nat (length data)) in *.
  set (frs := free_region_start (m_header p)) in *.
  set (fre := free_region_end (m_header p)) in *.
  assert (Hst : to_size_t (fre - len - 2) = fre - len - 2) by zsolve.
  rewrite Hst in *.
  rewrite (Z.mod_small len) in E1 by lia.
  pose proof (store_bytes_length _ _ _ _ E1) as L1.
  pose proof (store_bytes_length _ _ _ _ E2) as L2.
  pose proof (store_bytes_length _ _ _ _ E3) as L3.
  assert (Hfree : len + 4 <= fre - frs) by zsolve.
  split; [|zsolve].
  split; cbn [m_header m_data free_region_start free_region_end];
    rewrite ?data_size_2, ?Hfrs', ?Hfre'.
  - lia.
  - rewrite length_app. simpl. lia.
  - lia.
  - lia.
  - intros j d Hj. apply lookup_app_Some in Hj as [Hj|[Hge Hj]].
    + destruct (Hrec j d Hj) as (off & L0 & Hoff & Hend & Lp & Ld).
      apply lookup_lt_Some in Hj.
      pose proof (Zle_0_nat (length d)) as Hdl.
      exists off. repeat split; try lia.
      * rewrite (load_uint_store_uint_disjoint _ _ _ _ _ _ _ E3)
          by lia.
        unfold load_uint.
        rewrite (load_store_disjoint _ _ _ _ _ _ E2) by lia.
        rewrite (load_store_uint_disjoint _ _ _ _ _ _ _ E1) by lia.
        exact L0.
      * rewrite (load_uint_store_uint_disjoint _ _ _ _ _ _ _ E3)
          by lia.
        unfold load_uint.
        rewrite (load_store_disjoint _ _ _ _ _ _ E2) by lia.
        rewrite (load_store_uint_disjoint _ _ _ _ _ _ _ E1) by lia.
        exact Lp.
      * rewrite (load_store_uint_disjoint _ _ _ _ _ _ _ E3) by lia.
        rewrite (load_store_disjoint _ _ _ _ _ _ E2) by lia.
        rewrite (load_store_uint_disjoint _ _ _ _ _ _ _ E1) by lia.
        exact Ld.
    + apply list_lookup_singleton_Some in Hj as [Hj0 <-].
      assert (j = length ds) as -> by lia.
      exists (fre - len - 2). repeat split; try lia.
      * replace (2 * Z.of_nat (length ds))
          with (Z.of_nat (length ds) * 2) by lia.
        rewrite (load_store_uint_same 2 _ _ _ _ ltac:(lia) E3).
        f_equal. zsolve.
      * rewrite (load_uint_store_uint_disjoint _ _ _ _ _ _ _ E3)
          by lia.
        unfold load_uint.
        rewrite (load_store_disjoint _ _ _ _ _ _ E2) by lia.
        fold (load_uint 2 d1 (fre - len - 2)).
        rewrite (load_store_uint_same 2 _ _ _ _ ltac:(lia) E1).
        f_equal. zsolve.
      * rewrite (load_store_uint_disjoint _ _ _ _ _ _ _ E3) by lia.
        exact (load_store_same _ _ _ _ E2).
Qed.

Lemma page_ok_at p ds (i : nat) d :
  page_ok PageSize p ds ->
  ds !! i = Some d ->
  at_ PageSize p (Z.of_nat i) = Ok d.
Proof.
  intros Hok Hd.
  pose proof (page_ok_size _ _ Hok) as Hsz.
  destruct Hok as [_ _ _ _ Hrec].
  destruct (Hrec i d Hd) as (off & L0 & _ & _ & Lp & Ld).
  apply lookup_lt_Some in Hd.
  unfold at_, contains. rewrite Hsz.
  destruct (Z.ltb_spec (Z.of_nat i) (Z.of_nat (length ds))); [|lia].
  cbn [negb]. unfold size_and_offset_of. rewrite offset_width_2.
  replace (Z.of_nat i * 2) with (2 * Z.of_nat i) by lia.
  rewrite L0. simpl. rewrite Lp. simpl. now rewrite Ld.
Qed.

Lemma built_page_ok p ds :
  built PageSize p ds -> page_ok PageSize p ds.
Proof.
  induction 1 as [g Hg|p ds d i p' _ IH Hins].
  - now apply page_ok_ctor.
  - now destruct (page_ok_insert _ _ _ _ _ IH Hins).
Qed.

(** On pages with two-byte offsets, construction and successful inserts
    keep the header invariant. *)
Lemma built_header_invariant p ds :
  built PageSize p ds -> header_invariant PageSize p.
Proof.
  intros [_ Hs Ho He _]%built_page_ok.
  pose proof (Zle_0_nat (length ds)).
  unfold header_invariant. lia.
Qed.

(** Page bounds, for two-byte offsets: on a page built by successful
    inserts, [at] throws exactly from [size()] on, every insert returned
    the position of its record, and [at] gives each record back. *)
Lemma built_at p ds :
  built PageSize p ds ->
  size PageSize p = Z.of_nat (length ds)
  /\ (forall index,
        at_ PageSize p index = Throw out_of_range
        <-> size PageSize p <= index)
  /\ (forall (i : nat) d,
        ds !! i = Some d -> at_ PageSize p (Z.of_nat i) = Ok d).
Proof.
  intros Hok%built_page_ok. split; [now apply page_ok_size|]. split.
  - intros index. unfold at_, contains.
    destruct (Z.ltb_spec index (size PageSize p)); cbn [negb].
    + split; [|lia].
      destruct (size_and_offset_of _ _ _) as [[sz off]|]; [|discriminate].
      destruct (load_bytes _ _ _); discriminate.
    + split; [lia|reflexivity].
  - intros i d Hd. eapply page_ok_at; eauto.
Qed.

End TwoByteOffsets.

(** ** The out-of-space test, for every page size *)

(** [insert] throws exactly when the free space is below the payload length
    plus [sizeof(intra_offset_t) + 2], whatever the offset width. *)
Lemma insert_bad_alloc_iff PageSize p data :
  fst (insert PageSize p data) = Throw bad_alloc
  <-> free_space PageSize p
      < to_size_t (Z.of_nat (length data) + offset_width PageSize + 2).
Proof.
  unfold insert, fits.
  destruct (Z.leb_spec
              (to_size_t (Z.of_nat (length data) + offset_width PageSize + 2))
              (free_space PageSize p)) as [Hle|Hgt]; cbn [negb].
  - split; [|lia].
    destruct (store_uint _ _ _ _); [|discriminate].
    destruct (store_bytes _ _ _); [|discriminate].
    destruct (store_uint _ _ _ _); discriminate.
  - split; [intros _; assumption|reflexivity].
Qed.

(** A throwing [insert] has stored nothing: the page is the one it was
    given. *)
Lemma insert_Throw_unchanged PageSize p data e :
  fst (insert PageSize p data) = Throw e ->
  snd (insert PageSize p data) = p.
Proof.
  unfold insert. destruct (negb _); [reflexivity|].
  destruct (store_uint _ _ _ _); [|discriminate].
  destruct (store_bytes _ _ _); [|discriminate].
  destruct (store_uint _ _ _ _); discriminate.
Qed.

(** ** Serialization *)

Section Streams.

Variable PageSize : Z.

Lemma offset_width_cases :
  offset_width PageSize = 2 \/ offset_width PageSize = 4.
Proof. unfold offset_width. destruct (_ <=? _); auto. Qed.

Lemma to_offset_range z :
  0 <= to_offset PageSize z < 2 ^ (8 * offset_width PageSize).
Proof.
  unfold to_offset. apply Z.mod_pos_bound.
  destruct offset_width_cases as [-> | ->]; reflexivity.
Qed.

Lemma built_well_formed p ds :
  built PageSize p ds -> well_formed PageSize p.
Proof.
  induction 1 as [g Hg|p ds d i p' _ IH Hins].
  - split; cbn; auto using to_offset_range.
  - destruct IH as [Hl _ _]. unfold insert in Hins.
    destruct (negb _); [discriminate|].
    destruct (store_uint _ _ _ _) as [d1|] eqn:E1; [|discriminate].
    destruct (store_bytes d1 _ _) as [d2|] eqn:E2; [|discriminate].
    destruct (store_uint _ d2 _ _) as [d3|] eqn:E3; [|discriminate].
    injection Hins as _ <-.
    apply store_bytes_length in E1, E2, E3.
    split; cbn; auto using to_offset_range. congruence.
Qed.

Lemma length_header_bytes h :
  Z.of_nat (length (header_bytes PageSize h)) = sizeof_header PageSize.
Proof.
  unfold header_bytes, sizeof_header.
  rewrite length_app, !length_le_split.
  destruct offset_width_cases as [-> | ->]; reflexivity.
Qed.

Lemma header_of_header_bytes h :
  0 <= free_region_start h < 2 ^ (8 * offset_width PageSize) ->
  0 <= free_region_end h < 2 ^ (8 * offset_width PageSize) ->
  header_of_bytes PageSize (header_bytes PageSize h) = h.
Proof.
  intros Hs He. unfold header_of_bytes, header_bytes.
  rewrite take_app_length', drop_app_length'
    by now rewrite length_le_split.
  rewrite !le_combine_split.
  replace (Z.of_nat (Z.to_nat (offset_width PageSize)) * 8)
    with (8 * offset_width PageSize)
    by (destruct offset_width_cases as [-> | ->]; reflexivity).
  rewrite !Z.mod_small by assumption. now destruct h.
Qed.

(** Reading back what [operator<<] wrote restores the page. *)
Lemma read_write_page p q :
  well_formed PageSize p ->
  length (m_data q) = length (m_data p) ->
  read_page PageSize (mk_istream (write_page PageSize [] p) false) q
  = (mk_istream [] false, p).
Proof.
  intros [Hl Hs He] Hq. unfold read_page, write_page, is_read.
  cbn [is_fail is_bytes app].
  pose proof (length_header_bytes (m_header p)) as Hh.
  pose proof (length_header_bytes (m_header q)) as Hhq.
  assert (Hn : Z.to_nat (sizeof_header PageSize)
               = length (header_bytes PageSize (m_header p))) by lia.
  rewrite Hn, take_app_length, drop_app_length.
  rewrite Hq, Nat2Z.id, firstn_all, (drop_ge (m_data p)) by lia.
  rewrite Hh, !Z.ltb_irrefl. unfold overwrite.
  rewrite (drop_ge (header_bytes _ _)), (drop_ge (m_data q)) by lia.
  rewrite !app_nil_r, header_of_header_bytes by assumption.
  now destruct p.
Qed.

End Streams.

(** ** [clear()] *)

Lemma clear_keeps_data PageSize p :
  m_data (clear PageSize p) = m_data p.
Proof. reflexivity. Qed.

Lemma clear_size PageSize p : size PageSize (clear PageSize p) = 0.
Proof.
  unfold size, clear, to_offset, sizeof_header. cbn.
  destruct (offset_width_cases PageSize) as [-> | ->]; reflexivity.
Qed.

(** [clear()] stores the page size, not the buffer size, in
    [free_region_end]: the field ends [sizeof(header)] bytes past the
    buffer. *)
Lemma clear_free_region_end PageSize p :
  sizeof_header PageSize <= PageSize < 2 ^ 32 ->
  free_region_end (m_header (clear PageSize p))
  = data_size PageSize + sizeof_header PageSize.
Proof.
  unfold clear, data_size, to_offset, sizeof_header, offset_width. cbn.
  destruct (Z.leb_spec PageSize 16384); intros; zsolve.
Qed.

(** C1 (header invariant after every operation; in particular after
    [clear()]).  The code breaks it: on [page<128>], the constructor and
    [insert] keep [0 <= free_region_start <= free_region_end <= data_size],
    but [clear()] sets [free_region_end] to 128 while [data_size] is 124,
    and the next [insert] stores past the end of the buffer. *)
Theorem clear_breaks_header_invariant :
  let p0 := page_ctor 128 (repeat x00 124) in
  let p1 := snd (insert 128 p0 (ascii_bytes "Hello")) in
  header_invariant 128 p0
  /\ header_invariant 128 p1
  /\ data_size 128 = 124
  /\ free_region_end (m_header (clear 128 p1)) = 128
  /\ ~ header_invariant 128 (clear 128 p1)
  /\ fst (insert 128 (clear 128 p1) (ascii_bytes "Hello")) = Undefined.
Proof.
  cbv zeta. unfold header_invariant.
  repeat split; try (vm_compute; congruence).
  intros (_ & _ & Hend). vm_compute in Hend. congruence.
Qed.

(** C2 ([clear()] restores the header of a freshly constructed page).  The
    code does not: on [page<128>] a new page has the header (4, 124) and
    120 free bytes, the cleared page the header (4, 128) and 124 free bytes.
    The record count is 0 and the buffer is untouched, as claimed. *)
Theorem clear_header_differs_from_new_page :
  let p0 := page_ctor 128 (repeat x00 124) in
  let p1 := snd (insert 128 p0 (ascii_bytes "Hello")) in
  m_header p0 = mk_header 4 124
  /\ m_header (clear 128 p1) = mk_header 4 128
  /\ free_space 128 p0 = 120
  /\ free_space 128 (clear 128 p1) = 124
  /\ size 128 (clear 128 p1) = 0
  /\ m_data (clear 128 p1) = m_data p1.
Proof. cbv zeta. repeat split; vm_compute; reflexivity. Qed.

(** ** Pages with four-byte offsets *)

(** C3 ([insert] throws exactly when the payload plus offset entry plus
    length prefix exceeds the free space).  The code tests the payload
    length plus [sizeof(intra_offset_t) + 2]: on [page<16400>], whose
    offsets are four bytes wide, a new page has 16384 free bytes, a record
    of 16378 bytes needs 16378 + 4 + 4 = 16386, and [insert] accepts it,
    leaving [free_region_start] = 12 above [free_region_end] = 10. *)
Theorem insert_wide_offsets_accepts_overfull_record :
  let p0 := page_ctor 16400 (repeat x00 (Z.to_nat 16392)) in
  let data := repeat x61 (Z.to_nat 16378) in
  offset_width 16400 = 4
  /\ free_space 16400 p0 = 16384
  /\ Z.of_nat (length data) + offset_width 16400 + offset_width 16400
     = 16386
  /\ fst (insert 16400 p0 data) = Ok 0
  /\ m_header (snd (insert 16400 p0 data)) = mk_header 12 10.
Proof. cbv zeta. repeat split; vm_compute; reflexivity. Qed.

(** C9 (a successful [insert] lowers [free_space()] by the payload length
    plus twice the offset width, and raises [size()] by 1).  On
    [page<16400>] the insert of a 16378-byte record into a new page
    succeeds, [size()] goes from 0 to 1, and [free_space()] goes from 16384
    to 4294967294 instead of dropping by 16386. *)
Theorem insert_wide_offsets_free_space_grows :
  let p0 := page_ctor 16400 (repeat x00 (Z.to_nat 16392)) in
  let data := repeat x61 (Z.to_nat 16378) in
  let p1 := snd (insert 16400 p0 data) in
  fst (insert 16400 p0 data) = Ok 0
  /\ Z.of_nat (length data) + 2 * offset_width 16400 = 16386
  /\ free_space 16400 p0 = 16384
  /\ free_space 16400 p1 = 4294967294
  /\ size 16400 p0 = 0
  /\ size 16400 p1 = 1.
Proof. cbv zeta. repeat split; vm_compute; reflexivity. Qed.

(** C7 ([at] throws from [size()] on and otherwise returns the bytes given
    to the corresponding [insert]).  On [page<16400>] two inserts succeed
    and return 0 and 1, [size()] is 2 and [at(2)] throws, but neither
    [at(0)] nor [at(1)] returns the inserted record: the second insert
    wrote its length prefix over offset entry 0, and its own offset entry
    over its length prefix and payload. *)
Theorem at_wide_offsets_loses_records :
  let p0 := page_ctor 16400 (repeat x00 (Z.to_nat 16392)) in
  let d0 := repeat x61 (Z.to_nat 16378) in
  let d1 := ascii_bytes "World" in
  let p1 := snd (insert 16400 p0 d0) in
  let p2 := snd (insert 16400 p1 d1) in
  fst (insert 16400 p0 d0) = Ok 0
  /\ fst (insert 16400 p1 d1) = Ok 1
  /\ size 16400 p2 = 2
  /\ at_ 16400 p2 2 = Throw out_of_range
  /\ at_ 16400 p1 0 = Ok d0
  /\ at_ 16400 p2 0 <> Ok d0
  /\ at_ 16400 p2 1 <> Ok d1.
Proof. cbv zeta. repeat split; vm_compute; congruence. Qed.

(** ** Round trip *)

(** C8 (round trip).  For a page built by successful inserts, [operator<<]
    writes the header fields in order followed by the whole buffer,
    [PageSize] bytes in all, and [operator>>] on those bytes, into a
    freshly constructed page of the same size, yields a page with the same
    [size()] and the same result of [at(i)] at every index. *)
Theorem page_round_trip PageSize p ds garbage :
  sizeof_header PageSize <= PageSize < 2 ^ 64 ->
  built PageSize p ds ->
  Z.of_nat (length garbage) = data_size PageSize ->
  let bytes := write_page PageSize [] p in
  let p' := snd (read_page PageSize (mk_istream bytes false)
                           (page_ctor PageSize garbage)) in
  bytes
  = le_split (Z.to_nat (offset_width PageSize))
             (free_region_start (m_header p))
      ++ le_split (Z.to_nat (offset_width PageSize))
                  (free_region_end (m_header p))
      ++ m_data p
  /\ Z.of_nat (length bytes) = PageSize
  /\ p' = p
  /\ size PageSize p' = size PageSize p
  /\ forall i, at_ PageSize p' i = at_ PageSize p i.
Proof.
  intros Hsize Hb Hg bytes p'.
  pose proof (built_well_formed _ _ _ Hb) as Hwf.
  assert (Hp' : p' = p).
  { subst p' bytes. rewrite read_write_page; [reflexivity|assumption|].
    destruct Hwf as [Hl _ _]. cbn. lia. }
  rewrite Hp'. subst bytes. unfold write_page. cbn [app].
  split; [unfold header_bytes; now rewrite <- app_assoc|].
  split; [|auto].
  rewrite length_app, Nat2Z.inj_add, length_header_bytes.
  destruct Hwf as [-> _ _]. unfold data_size, sizeof_header in *.
  clear - Hsize.
  destruct (offset_width_cases PageSize) as [E|E]; rewrite E in *; zsolve.
Qed.

Lemma page_round_trip_witness :
  let p0 := page_ctor 128 (repeat x00 124) in
  let p1 := snd (insert 128 p0 (ascii_bytes "Hello")) in
  let p2 := snd (insert 128 p1 (ascii_bytes "World")) in
  let bytes := write_page 128 [] p2 in
  let p' := snd (read_page 128 (mk_istream bytes false)
                           (page_ctor 128 (repeat x01 124))) in
  Z.of_nat (length bytes) = 128
  /\ size 128 p' = size 128 p2
  /\ forall i, at_ 128 p' i = at_ 128 p2 i.
Proof.
  intros p0 p1 p2.
  assert (Hsize : sizeof_header 128 <= 128 < 2 ^ 64)
    by (vm_compute; split; congruence).
  assert (Hbuilt : built 128 p2 [ascii_bytes "Hello"; ascii_bytes "World"]).
  { apply (built_insert 128 p1 [ascii_bytes "Hello"] _ 1).
    - apply (built_insert 128 p0 [] _ 0).
      + apply built_ctor. reflexivity.
      + reflexivity.
    - reflexivity. }
  assert (Hg : Z.of_nat (length (repeat x01 124)) = data_size 128)
    by reflexivity.
  destruct (page_round_trip 128 p2 _ _ Hsize Hbuilt Hg)
    as (_ & Hlen & _ & Hsz & Hat).
  exact (conj Hlen (conj Hsz Hat)).
Defined.

End PageFacts.

(** * The cache *)

Module LruFacts.

Import Lru.

(** The scenarios of [tests/test_lru.cpp]. *)
Example lru_insert_beyond_capacity :
  match run (world0, lru_ctor (Key:=Z) 2)
          [OInsertValue 1; OInsertValue 2; OInsertValue 3] with
  | Some (w, c) =>
    let '(r1, c1) := get w c 1 in
    let '(r2, c2) := get w c1 2 in
    let '(r3, c3) := get w c2 3 in
    r1 = Ok None /\ r2 = Ok (Some 1%nat) /\ r3 = Ok (Some 2%nat)
  | None => False
  end.
Proof. vm_compute. repeat split. Qed.

Example lru_update_order :
  match run (world0, lru_ctor (Key:=Z) 2)
          [OInsertValue 1; OInsertValue 2; OGet 1; OInsertValue 3] with
  | Some (w, c) =>
    let '(r2, c2) := get w c 2 in
    let '(r1, c1) := get w c2 1 in
    let '(r3, c3) := get w c1 3 in
    r2 = Ok None /\ r1 = Ok (Some 0%nat) /\ r3 = Ok (Some 2%nat)
  | None => False
  end.
Proof. vm_compute. repeat split. Qed.

(** ** Lists *)

Lemma length_removelast {A} (l : list A) :
  length (removelast l) = pred (length l).
Proof. rewrite removelast_firstn_len, length_take. lia. Qed.

Lemma pop_back_Some {A} (l l' : list A) :
  pop_back l = Some l' -> l <> [] /\ l' = removelast l.
Proof.
  destruct l; [discriminate|]. intros [= <-].
  split; [discriminate|reflexivity].
Qed.

Lemma length_splice_front {A} (l l' : list (list_iterator * A)) it :
  splice_front l it = Some l' -> length l' = length l.
Proof.
  unfold splice_front.
  destruct (list_find _ l) as [[i nd]|] eqn:Hf; [|discriminate].
  intros [= <-]. apply list_find_Some in Hf as (Hi & _).
  cbn. rewrite length_delete by eauto.
  apply lookup_lt_Some in Hi. lia.
Qed.

Lemma splice_front_head {A} (n : list_iterator) (x : A) l :
  splice_front ((n, x) :: l) n = Some ((n, x) :: l).
Proof.
  unfold splice_front. cbn. rewrite decide_True by reflexivity.
  reflexivity.
Qed.

Lemma filter_nonempty_Exists {A} (P : A -> Prop) `{!forall x, Decision (P x)}
    (l : list A) :
  (0 < length (filter P l))%nat <-> Exists P l.
Proof.
  induction l as [|x l IH].
  - rewrite filter_nil. cbn. split; [lia|]. intros Hex. inversion Hex.
  - rewrite filter_cons. destruct (decide (P x)) as [HP|HP].
    + cbn. split; [now constructor|lia].
    + rewrite IH. split; [now constructor|].
      intros Hex. inversion Hex; [contradiction|assumption].
Qed.

(** ** The operations *)

Section WithKey.

Context {Key : Type} `{Countable Key}.

Implicit Types (c : lru (Key:=Key)) (w : world) (key : Key).

(** What a normally returning [insert] did. *)
Lemma insert_Ok c key ptr u c' :
  insert c key ptr = (Ok u, c') ->
  exists l,
    (if (m_size c <=? N.of_nat (length (m_list c)))%N
     then m_list c <> [] /\ l = removelast (m_list c)
     else l = m_list c)
    /\ c' = mk_lru ((next_node c, ptr) :: l)
                   (<[key := ptr]> (m_map c))
                   (<[key := next_node c]> (m_iter_map c))
                   (m_size c) (S (next_node c)).
Proof.
  unfold insert.
  destruct (m_size c <=? _)%N.
  - destruct (pop_back _) as [l|] eqn:Hp; [|discriminate].
    intros [= <-]. apply pop_back_Some in Hp. eauto.
  - intros [= <-]. eauto.
Qed.

(** With a capacity of at least 1, the eviction branch finds a node to
    remove and [insert] returns normally. *)
Lemma insert_defined c key ptr :
  (1 <= m_size c)%N -> fst (insert c key ptr) = Ok tt.
Proof.
  intros Hcap. unfold insert.
  destruct (N.leb_spec (m_size c) (N.of_nat (length (m_list c))))
    as [Hfull|Hroom]; [|reflexivity].
  destruct (m_list c); [cbn in Hfull; lia|reflexivity].
Qed.

Lemma insert_bookkeeping cap c key ptr u c' :
  bookkeeping cap c ->
  insert c key ptr = (Ok u, c') ->
  bookkeeping cap c'.
Proof.
  intros (Hsz & Hlen & Hdom) (l & Hl & ->)%insert_Ok.
  unfold bookkeeping. cbn. rewrite !dom_insert_L, Hdom.
  split; [assumption|]. split; [|reflexivity].
  destruct (N.leb_spec (m_size c) (N.of_nat (length (m_list c))))
    as [Hfull|Hroom].
  - destruct Hl as [Hne ->]. rewrite length_removelast.
    destruct (m_list c); [congruence|]. cbn in *. lia.
  - subst l. lia.
Qed.

Lemma get_bookkeeping cap w c key r c' :
  bookkeeping cap c ->
  get w c key = (Ok r, c') ->
  bookkeeping cap c'.
Proof.
  intros (Hsz & Hlen & Hdom). unfold get.
  destruct (m_map c !! key) as [wp|]; [|intros [= _ <-]; now repeat split].
  destruct (lock w c wp).
  - destruct (m_iter_map c !! key) as [it|]; [|discriminate].
    destruct (splice_front _ _) as [l|] eqn:Hs; [|discriminate].
    intros [= _ <-]. apply length_splice_front in Hs.
    unfold bookkeeping. cbn. rewrite Hs. auto.
  - intros [= _ <-]. unfold bookkeeping. cbn.
    rewrite !dom_delete_L, Hdom. auto.
Qed.

Lemma step_bookkeeping cap (s s' : world * lru (Key:=Key)) a :
  bookkeeping cap (snd s) ->
  step s a = Some s' ->
  bookkeeping cap (snd s').
Proof.
  destruct s as [w c]. cbn [snd]. intros Hb.
  destruct a as [key ptr|key|key|o|o]; cbn.
  - destruct (insert c key ptr) as [[u| |] c1] eqn:Hi; try discriminate.
    intros [= <-]. eapply insert_bookkeeping; eauto.
  - unfold insert_value.
    destruct (insert c key _) as [[u| |] c1] eqn:Hi; try discriminate.
    intros [= <-]. eapply insert_bookkeeping; eauto.
  - destruct (get w c key) as [[r| |] c1] eqn:Hg; try discriminate.
    intros [= <-]. eapply get_bookkeeping; eauto.
  - now intros [= <-].
  - now intros [= <-].
Qed.

Lemma run_bookkeeping cap ops (s s' : world * lru (Key:=Key)) :
  bookkeeping cap (snd s) ->
  run s ops = Some s' ->
  bookkeeping cap (snd s').
Proof.
  revert s. induction ops as [|a ops IH]; intros s Hb; cbn.
  - now intros [= <-].
  - destruct (step s a) as [s1|] eqn:Hs; [|discriminate].
    apply IH. eapply step_bookkeeping; eauto.
Qed.

Lemma insert_positions c key ptr u c' :
  positions_ok c ->
  insert c key ptr = (Ok u, c') ->
  positions_ok c'.
Proof.
  intros (Hnd & Hfresh & Hold & Hinj & Hsame) (l & Hl & ->)%insert_Ok.
  assert (Htake : exists k, l = take k (m_list c)).
  { destruct (m_size c <=? _)%N.
    - destruct Hl as [_ ->]. rewrite removelast_firstn_len. eauto.
    - subst l. exists (length (m_list c)). now rewrite firstn_all. }
  clear Hl. destruct Htake as [k ->].
  assert (Hin : forall n p, (n, p) ∈ take k (m_list c) -> (n, p) ∈ m_list c)
    by (intros n p; apply subseteq_take).
  unfold positions_ok. cbn [m_list m_map m_iter_map next_node].
  split; [|split; [|split; [|split]]].
  - rewrite fmap_cons, NoDup_cons. cbn [fst]. split.
    + intros ([n p] & Hn & Hnp%Hin%Hfresh)%list_elem_of_fmap_1.
      cbn in Hn. lia.
    + rewrite fmap_take. eapply sublist_NoDup; [done|apply sublist_take].
  - intros n p [[= -> ->]|Hnp%Hin%Hfresh]%elem_of_cons; lia.
  - intros k' n. destruct (decide (key = k')) as [->|Hne].
    + rewrite lookup_insert_eq. intros [= <-]. lia.
    + rewrite lookup_insert_ne by done. intros Hn%Hold. lia.
  - intros k1 k2 n.
    destruct (decide (key = k1)) as [E1|Hne1];
      destruct (decide (key = k2)) as [E2|Hne2]; [congruence| | |].
    + subst k1. rewrite lookup_insert_eq, lookup_insert_ne by done.
      intros [= <-] Hn%Hold. lia.
    + subst k2. rewrite lookup_insert_eq, lookup_insert_ne by done.
      intros Hn%Hold [= <-]. lia.
    + rewrite !lookup_insert_ne by done. apply Hinj.
  - intros k' n p. destruct (decide (key = k')) as [->|Hne].
    + rewrite !lookup_insert_eq. intros [= <-].
      intros [[= ->]|Hnp%Hin%Hfresh]%elem_of_cons; [done|lia].
    + rewrite !lookup_insert_ne by done. intros Hk.
      intros [[= -> ->]|Hnp%Hin]%elem_of_cons.
      * apply Hold in Hk. lia.
      * eauto.
Qed.

Lemma get_positions w c key r c' :
  positions_ok c ->
  get w c key = (Ok r, c') ->
  positions_ok c'.
Proof.
  intros (Hnd & Hfresh & Hold & Hinj & Hsame). unfold get.
  destruct (m_map c !! key) as [wp|];
    [|intros [= _ <-]; now repeat split].
  destruct (lock w c wp) as [o|].
  - destruct (m_iter_map c !! key) as [it|]; [|discriminate].
    unfold splice_front.
    destruct (list_find _ _) as [[i nd]|] eqn:Hf; [|discriminate].
    intros [= _ <-]. apply list_find_Some in Hf as (Hi & _).
    apply delete_Permutation in Hi.
    unfold positions_ok. cbn [m_list m_map m_iter_map next_node].
    rewrite <- Hi. repeat split; try assumption.
    + intros n p. rewrite <- Hi. apply Hfresh.
    + intros k n p. rewrite <- Hi. apply Hsame.
  - intros [= _ <-].
    unfold positions_ok. cbn [m_list m_map m_iter_map next_node].
    repeat split; try assumption.
    + intros k n [_ Hk]%lookup_delete_Some. eauto.
    + intros k1 k2 n [_ H1]%lookup_delete_Some [_ H2]%lookup_delete_Some.
      eauto.
    + intros k n p [Hne Hk]%lookup_delete_Some Hnp.
      rewrite lookup_delete_ne by done. eauto.
Qed.

Lemma step_positions (s s' : world * lru (Key:=Key)) a :
  positions_ok (snd s) ->
  step s a = Some s' ->
  positions_ok (snd s').
Proof.
  destruct s as [w c]. cbn [snd]. intros Hb.
  destruct a as [key ptr|key|key|o|o]; cbn.
  - destruct (insert c key ptr) as [[u| |] c1] eqn:Hi; try discriminate.
    intros [= <-]. eapply insert_positions; eauto.
  - unfold insert_value.
    destruct (insert c key _) as [[u| |] c1] eqn:Hi; try discriminate.
    intros [= <-]. eapply insert_positions; eauto.
  - destruct (get w c key) as [[r| |] c1] eqn:Hg; try discriminate.
    intros [= <-]. eapply get_positions; eauto.
  - now intros [= <-].
  - now intros [= <-].
Qed.

Lemma run_positions ops (s s' : world * lru (Key:=Key)) :
  positions_ok (snd s) ->
  run s ops = Some s' ->
  positions_ok (snd s').
Proof.
  revert s. induction ops as [|a ops IH]; intros s Hb; cbn.
  - now intros [= <-].
  - destruct (step s a) as [s1|] eqn:Hs; [|discriminate].
    apply IH. eapply step_positions; eauto.
Qed.

Lemma ctor_positions cap : positions_ok (lru_ctor (Key:=Key) cap).
Proof.
  unfold positions_ok, lru_ctor. cbn. repeat split.
  - constructor.
  - intros n p Hin. inversion Hin.
  - intros k n Hk. rewrite lookup_empty in Hk. discriminate.
  - intros k k' n Hk. rewrite lookup_empty in Hk. discriminate.
  - intros k n p Hk. rewrite lookup_empty in Hk. discriminate.
Qed.

Lemma ctor_bookkeeping cap : bookkeeping cap (lru_ctor (Key:=Key) cap).
Proof. unfold bookkeeping, lru_ctor. cbn. rewrite !dom_empty_L. auto with lia. Qed.

Lemma get_after_insert w c key o :
  (1 <= m_size c)%N ->
  let c' := snd (insert c key (Some o)) in
  m_map c' !! key = Some (Some o)
  /\ alive w c' o = true
  /\ fst (get w c' key) = Ok (Some o).
Proof.
  intros Hcap c'.
  pose proof (insert_defined c key (Some o) Hcap) as Hok.
  destruct (insert c key (Some o)) as [r c1] eqn:Hi.
  cbn in Hok. subst r c'. cbn [snd].
  apply insert_Ok in Hi as (l & _ & ->).
  assert (Ha : alive w
                 (mk_lru ((next_node c, Some o) :: l)
                    (<[key := Some o]> (m_map c))
                    (<[key := next_node c]> (m_iter_map c))
                    (m_size c) (S (next_node c))) o = true).
  { unfold alive, use_count, list_owners. cbn [m_list].
    rewrite filter_cons_True by reflexivity.
    apply Nat.ltb_lt. cbn. lia. }
  split; [cbn; apply lookup_insert_eq|]. split; [exact Ha|].
  unfold get. cbn [m_map m_iter_map m_list].
  rewrite !lookup_insert_eq. cbn [lock]. rewrite Ha.
  now rewrite splice_front_head.
Qed.

(** C10 (the eviction branch of [insert] always finds a tail to remove
    when the capacity is at least 1; with capacity 0 it does not).  After
    any script of operations on a cache constructed with capacity
    [cap >= 1], a length that reaches the capacity is not zero and
    [insert] returns normally; on a new cache of capacity 0, [insert]
    reaches [pop_back()] with the empty list. *)
Theorem insert_eviction_defined :
  (forall (cap : N) w0 ops w c,
      (1 <= cap)%N ->
      run (w0, lru_ctor (Key:=Key) cap) ops = Some (w, c) ->
      forall key ptr,
        ((m_size c <=? N.of_nat (length (m_list c)))%N = true ->
         m_list c <> [] /\ pop_back (m_list c) <> None)
        /\ fst (insert c key ptr) = Ok tt)
  /\ (forall key ptr,
        (m_size (lru_ctor (Key:=Key) 0)
         <=? N.of_nat (length (m_list (lru_ctor (Key:=Key) 0))))%N = true
        /\ pop_back (m_list (lru_ctor (Key:=Key) 0)) = None
        /\ fst (insert (lru_ctor (Key:=Key) 0) key ptr) = Undefined).
Proof.
  split.
  - intros cap w0 ops w c Hcap Hrun key ptr.
    pose proof (run_bookkeeping cap ops (w0, lru_ctor cap) _
                  (ctor_bookkeeping cap) Hrun)
      as (Hsz & _ & _).
    cbn [snd] in Hsz. split.
    + intros Hfull%N.leb_le.
      destruct (m_list c); [cbn in Hfull; lia|]. split; discriminate.
    + apply insert_defined. lia.
  - intros key ptr. repeat split.
Qed.

(** C4, as the code has it.  The key-to-reference map holds weak
    references, the recency list holds [std::shared_ptr]s.  After
    [insert(key, ptr)] on a cache of capacity at least 1 the value is
    alive and [get(key)] returns it whatever the owners outside the cache
    are, none included; and the value [q] of an evicted tail node
    survives the eviction exactly when an owner outside the cache, the
    inserted pointer, or another list node still holds it. *)
Theorem recency_list_owns_values w c key o :
  (1 <= m_size c)%N ->
  let c' := snd (insert c key (Some o)) in
  m_map c' !! key = Some (Some o)
  /\ alive w c' o = true
  /\ fst (get w c' key) = Ok (Some o)
  /\ forall l n q,
       m_list c = l ++ [(n, Some q)] ->
       (m_size c <= N.of_nat (length (m_list c)))%N ->
       (alive w c' q = true
        <-> (0 < ext w q)%nat \/ q = o \/ held_in l q).
Proof.
  intros Hcap c'.
  destruct (get_after_insert w c key o Hcap) as (Hm & Ha & Hg).
  do 3 (split; [assumption|]).
  intros l n q Hl Hfull. subst c'.
  pose proof (insert_defined c key (Some o) Hcap) as Hok.
  destruct (insert c key (Some o)) as [r c1] eqn:Hi.
  cbn in Hok. subst r. cbn [snd].
  apply insert_Ok in Hi as (l' & Hl' & ->).
  apply N.leb_le in Hfull. rewrite Hfull in Hl'.
  destruct Hl' as [_ ->]. rewrite Hl, removelast_last.
  unfold alive, use_count, list_owners, held_in. cbn [m_list].
  rewrite Nat.ltb_lt, filter_cons. cbn [snd].
  destruct (decide (Some o = Some q)) as [[= ->]|Hne].
  - cbn. split; [auto|lia].
  - rewrite <- (filter_nonempty_Exists (fun nd => snd nd = Some q) l).
    split; [|intros [?|[->|?]]; [lia|congruence|lia]].
    intros Hpos.
    destruct (length (filter _ l)); [left|right; right]; lia.
Qed.

(** C5, as the code has it.  Releasing the owner outside the cache does
    not make an inserted value dead, since its list node owns it: the
    next [get] returns the value.  A [get] on a key whose weak reference
    no longer locks returns [nullptr] and erases the key from the
    reference map and from the position map; the recency list, whose
    length decides later evictions, is left as it was. *)
Theorem get_purges_maps_of_dead_reference w c key :
  (forall o,
      (1 <= m_size c)%N ->
      fst (get (release o w) (snd (insert c key (Some o))) key)
      = Ok (Some o))
  /\ (forall wp,
        m_map c !! key = Some wp ->
        lock w c wp = None ->
        let c' := snd (get w c key) in
        fst (get w c key) = Ok None
        /\ m_map c' = delete key (m_map c)
        /\ m_iter_map c' = delete key (m_iter_map c)
        /\ m_list c' = m_list c
        /\ m_size c' = m_size c).
Proof.
  split.
  - intros o Hcap. now apply get_after_insert.
  - intros wp Hm Hdead. unfold get. rewrite Hm, Hdead. cbn.
    repeat split.
Qed.

End WithKey.

(** ** Concrete caches *)

(** C4 fails on the code: with no owner outside the cache at all, the value
    inserted under key 1 is alive and [get(1)] returns it, because the list
    node holds a strong reference; inserting key 2 into this cache of
    capacity 1 evicts that node and the value dies. *)
Lemma cache_owns_inserted_value :
  let c1 := snd (insert (lru_ctor (Key:=Z) 1) 1 (Some 10%nat)) in
  let c2 := snd (insert c1 2 (Some 20%nat)) in
  ext world0 10%nat = 0%nat
  /\ m_list c1 = [(0%nat, Some 10%nat)]
  /\ alive world0 c1 10%nat = true
  /\ fst (get world0 c1 1) = Ok (Some 10%nat)
  /\ fst (insert c1 2 (Some 20%nat)) = Ok tt
  /\ alive world0 c2 10%nat = false.
Proof. cbv zeta. repeat split; vm_compute; reflexivity. Qed.

Lemma recency_list_owns_values_witness :
  let c1 := snd (insert (lru_ctor (Key:=Z) 1) 1 (Some 10%nat)) in
  let c2 := snd (insert c1 2 (Some 20%nat)) in
  fst (get world0 c1 1) = Ok (Some 10%nat)
  /\ (alive world0 c2 10%nat = true
      <-> (0 < ext world0 10%nat)%nat \/ 10%nat = 20%nat
          \/ held_in [] 10%nat).
Proof.
  intros c1 c2.
  assert (Hcap0 : (1 <= m_size (lru_ctor (Key:=Z) 1))%N) by reflexivity.
  assert (Hcap1 : (1 <= m_size c1)%N) by reflexivity.
  assert (Hl : m_list c1 = [] ++ [(0%nat, Some 10%nat)]) by reflexivity.
  assert (Hfull : (m_size c1 <= N.of_nat (length (m_list c1)))%N)
    by reflexivity.
  split.
  - exact (proj1 (proj2 (proj2
             (recency_list_owns_values world0 _ 1 10%nat Hcap0)))).
  - exact (proj2 (proj2 (proj2
             (recency_list_owns_values world0 c1 2 20%nat Hcap1)))
             [] 0%nat 10%nat Hl Hfull).
Defined.

(** C5 fails on the code: object 10 has one strong owner outside the cache;
    after [insert(1, ptr)] and the release of that owner, [get(1)] returns
    the object, and key 1 stays in both maps and in the list. *)
Lemma get_after_release_returns_value :
  let w1 := acquire 10%nat world0 in
  ext w1 10%nat = 1%nat
  /\ exists w c,
       run (w1, lru_ctor (Key:=Z) 2) [OInsert 1 (Some 10%nat); ORelease 10%nat]
       = Some (w, c)
       /\ ext w 10%nat = 0%nat
       /\ fst (get w c 1) = Ok (Some 10%nat)
       /\ m_map (snd (get w c 1)) !! 1 = Some (Some 10%nat)
       /\ m_iter_map (snd (get w c 1)) !! 1 = Some 0%nat
       /\ length (m_list (snd (get w c 1))) = 1%nat.
Proof.
  cbv zeta. split; [reflexivity|].
  eexists _, _. split; [vm_compute; reflexivity|].
  repeat split; vm_compute; reflexivity.
Qed.

Lemma get_purges_maps_of_dead_reference_witness :
  fst (get (release 10%nat world0)
         (snd (insert (lru_ctor (Key:=Z) 2) 1 (Some 10%nat))) 1)
  = Ok (Some 10%nat)
  /\ (let c := snd (insert (snd (insert (lru_ctor (Key:=Z) 1) 1
                                    (Some 10%nat))) 2 (Some 20%nat)) in
      fst (get world0 c 1) = Ok None
      /\ m_list (snd (get world0 c 1)) = m_list c).
Proof.
  split.
  - assert (Hcap : (1 <= m_size (lru_ctor (Key:=Z) 2))%N)
      by (vm_compute; congruence).
    exact (proj1 (get_purges_maps_of_dead_reference
                    world0 (lru_ctor 2) 1) 10%nat Hcap).
  - intros c.
    assert (Hm : m_map c !! 1 = Some (Some 10%nat)) by reflexivity.
    assert (Hd : lock world0 c (Some 10%nat) = None) by reflexivity.
    destruct (proj2 (get_purges_maps_of_dead_reference world0 c 1)
                _ Hm Hd) as (Hr & _ & _ & Hl & _).
    exact (conj Hr Hl).
Defined.

(** C6 (an insert into a full cache removes the evicted key from the list
    but from neither map).  Capacity 1; both values are owned outside the
    cache, so that no value is reclaimed.  After [insert(1, a)] and
    [insert(2, b)] the list holds the node of key 2 alone, but key 1 still
    has its entry in the reference map and in the position map, and its
    reference still locks: [get(1)], which is to return [nullptr] for an
    item that is not in the cache, passes the iterator that [pop_back]
    invalidated to [splice].  When the cache is the only owner of the
    values (insertion by value, as in the test on insertion beyond the
    capacity) the evicted value is dead; key 1 is in both maps all the
    same, until [get(1)] finds it dead, erases it and returns
    [nullptr]. *)
Lemma eviction_leaves_key_in_maps :
  let w := acquire 10%nat (acquire 20%nat world0) in
  (exists c,
     run (w, lru_ctor (Key:=Z) 1)
         [OInsert 1 (Some 10%nat); OInsert 2 (Some 20%nat)]
     = Some (w, c)
     /\ m_list c = [(1%nat, Some 20%nat)]
     /\ m_map c !! 1 = Some (Some 10%nat)
     /\ m_iter_map c !! 1 = Some 0%nat
     /\ alive w c 10%nat = true
     /\ fst (get w c 1) = Undefined)
  /\ exists w' c',
       run (world0, lru_ctor (Key:=Z) 1) [OInsertValue 1; OInsertValue 2]
       = Some (w', c')
       /\ m_list c' = [(1%nat, Some 1%nat)]
       /\ m_map c' !! 1 = Some (Some 0%nat)
       /\ m_iter_map c' !! 1 = Some 0%nat
       /\ alive w' c' 0%nat = false
       /\ fst (get w' c' 1) = Ok None
       /\ m_map (snd (get w' c' 1)) !! 1 = None
       /\ m_iter_map (snd (get w' c' 1)) !! 1 = None.
Proof.
  cbv zeta. split.
  - eexists. split; [vm_compute; reflexivity|].
    repeat split; vm_compute; reflexivity.
  - eexists _, _. split; [vm_compute; reflexivity|].
    repeat split; vm_compute; reflexivity.
Qed.

Lemma insert_eviction_defined_witness :
  exists w c,
    run (world0, lru_ctor (Key:=Z) 2)
        [OInsertValue 1; OInsertValue 2; OGet 1]
    = Some (w, c)
    /\ m_list c <> []
    /\ fst (insert c 3 (Some 7%nat)) = Ok tt.
Proof.
  eexists _, _. split; [vm_compute; reflexivity|].
  match goal with
  | |- m_list ?c <> [] /\ _ =>
    assert (Hrun : run (world0, lru_ctor (Key:=Z) 2)
                     [OInsertValue 1; OInsertValue 2; OGet 1]
                   = Some (mk_world (fun _ => 0%nat) 2%nat, c))
      by (vm_compute; reflexivity);
    assert (Hfull : (m_size c <=? N.of_nat (length (m_list c)))%N = true)
      by reflexivity
  end.
  assert (Hcap : (1 <= 2)%N) by (vm_compute; congruence).
  destruct (proj1 insert_eviction_defined 2%N _ _ _ _ Hcap Hrun
              3 (Some 7%nat)) as (Hne & Hok).
  exact (conj (proj1 (Hne Hfull)) Hok).
Defined.

End LruFacts.

(** * Packed pages, for either offset width *)

Module PageLayout.

Import Page PageFacts.

(** As [zsolve], after the powers of two that the offset widths give rise
    to are evaluated. *)
Ltac wsolve :=
  change (2 ^ (8 * 2)) with 65536 in *;
  change (2 ^ (8 * 4)) with 4294967296 in *;
  change (Z.to_nat 2) with 2%nat in *;
  change (Z.to_nat 4) with 4%nat in *;
  zsolve.

Section Layout.

Variable PageSize : Z.

Abbreviation W := (offset_width PageSize).

Lemma width_facts :
  (W = 2 /\ PageSize <= 16384) \/ (W = 4 /\ 16384 < PageSize).
Proof.
  unfold offset_width. destruct (Z.leb_spec PageSize 16384); auto.
Qed.

Lemma used_app ds1 ds2 :
  used PageSize (ds1 ++ ds2) = used PageSize ds1 + used PageSize ds2.
Proof.
  induction ds1 as [|d ds1 IH]; cbn; [reflexivity|].
  fold (used PageSize (ds1 ++ ds2)). fold (used PageSize ds1). lia.
Qed.

Lemma used_snoc ds d :
  used PageSize (ds ++ [d])
  = used PageSize ds + (Z.of_nat (length d) + W).
Proof. rewrite used_app. cbn. lia. Qed.

Lemma used_nonneg ds : 0 <= used PageSize ds.
Proof.
  induction ds as [|d ds IH]; cbn; [lia|]. fold (used PageSize ds).
  destruct width_facts as [[-> _]|[-> _]]; lia.
Qed.

Lemma used_take_le (i : nat) ds :
  used PageSize (take i ds) <= used PageSize ds.
Proof.
  rewrite <- (take_drop i ds) at 2. rewrite used_app.
  pose proof (used_nonneg (drop i ds)). lia.
Qed.


Lemma used_take_S (i : nat) ds d :
  ds !! i = Some d ->
  used PageSize (take (S i) ds)
  = used PageSize (take i ds) + (Z.of_nat (length d) + W).
Proof. intros Hd. now rewrite (take_S_r _ _ _ Hd), used_snoc. Qed.

(** What a normally returning [insert] stored, for any page size. *)
Lemma insert_Ok_stores p data i p' :
  insert PageSize p data = (Ok i, p') ->
  let len := Z.of_nat (length data) in
  let start := to_size_t (free_region_end (m_header p) - len - W) in
  exists d1 d2 d3,
    store_uint W (m_data p) start (to_offset PageSize len) = Some d1
    /\ store_bytes d1 (start + W) data = Some d2
    /\ store_uint W d2 (size PageSize p * W) (to_offset PageSize start)
       = Some d3
    /\ i = size PageSize p
    /\ p' = mk_page
              (mk_header
                 (to_offset PageSize (free_region_start (m_header p) + W))
                 (to_offset PageSize start))
              d3.
Proof.
  unfold insert. destruct (negb _); [discriminate|].
  destruct (store_uint _ (m_data p) _ _) as [d1|] eqn:E1; [|discriminate].
  destruct (store_bytes d1 _ data) as [d2|] eqn:E2; [|discriminate].
  destruct (store_uint _ d2 _ _) as [d3|] eqn:E3; [|discriminate].
  intros [= <- <-]. exists d1, d2, d3. auto 10.
Qed.

(** From here on the page has room for its header twice over (the header
    itself and the slack [free_region_start] begins with), and its size is
    a value of [intra_offset_t]. *)
Hypothesis Hroom : 2 * sizeof_header PageSize <= PageSize.
Hypothesis Hmax : PageSize < 2 ^ 32.

Lemma layout_arith p ds :
  layout PageSize p ds ->
  let frs := free_region_start (m_header p) in
  let fre := free_region_end (m_header p) in
  let n := Z.of_nat (length ds) in
  data_size PageSize = PageSize - 2 * W
  /\ frs = 2 * W + W * n
  /\ fre = PageSize - 2 * W - used PageSize ds
  /\ frs <= fre
  /\ 0 <= used PageSize ds
  /\ size PageSize p = n
  /\ free_space PageSize p = fre - frs.
Proof.
  intros [Hl Hs He Hr _]. cbn zeta.
  pose proof (used_nonneg ds) as Hu.
  pose proof (Zle_0_nat (length ds)) as Hn.
  unfold size, free_space, data_size, sizeof_header in *.
  generalize dependent (used PageSize ds). intros u **.
  generalize dependent (Z.of_nat (length ds)). intros n **.
  generalize dependent (free_region_start (m_header p)). intros frs **.
  generalize dependent (free_region_end (m_header p)). intros fre **.
  destruct width_facts as [[HW HP]|[HW HP]]; rewrite HW in *;
    cbn [Z.eqb Pos.eqb]; repeat split; wsolve.
Qed.

Lemma layout_well_formed p ds :
  layout PageSize p ds -> well_formed PageSize p.
Proof.
  intros Hlay.
  destruct (layout_arith _ _ Hlay) as (Hd & Hs & He & Hr & Hu & _ & _).
  pose proof (Zle_0_nat (length ds)) as Hn.
  destruct Hlay as [Hl _ _ _ _]. split; [assumption| |].
  - destruct width_facts as [[HW HP]|[HW HP]]; rewrite HW in *; wsolve.
  - destruct width_facts as [[HW HP]|[HW HP]]; rewrite HW in *; wsolve.
Qed.

Lemma layout_ctor garbage :
  Z.of_nat (length garbage) = data_size PageSize ->
  layout PageSize (page_ctor PageSize garbage) [].
Proof.
  intros Hg. unfold page_ctor.
  split; cbn [m_header m_data free_region_start free_region_end length used
              foldr]; try assumption.
  - unfold to_offset, sizeof_header.
    destruct width_facts as [[HW HP]|[HW HP]]; rewrite HW in *; wsolve.
  - unfold to_offset, data_size, sizeof_header in *.
    destruct width_facts as [[HW HP]|[HW HP]]; rewrite HW in *; wsolve.
  - unfold to_offset, data_size, sizeof_header in *.
    destruct width_facts as [[HW HP]|[HW HP]]; rewrite HW in *; wsolve.
  - intros i d Hd. rewrite lookup_nil in Hd. discriminate.
Qed.

Lemma record_offset_bounds ds (i : nat) d :
  ds !! i = Some d ->
  data_size PageSize - used PageSize ds <= record_offset PageSize ds i
  /\ record_offset PageSize ds i + W + Z.of_nat (length d)
     = data_size PageSize - used PageSize (take i ds)
  /\ record_offset PageSize ds i + W + Z.of_nat (length d)
     <= data_size PageSize.
Proof.
  intros Hd. unfold record_offset. rewrite (used_take_S _ _ _ Hd).
  pose proof (used_take_le (S i) ds) as H1.
  rewrite (used_take_S _ _ _ Hd) in H1.
  pose proof (used_nonneg (take i ds)). lia.
Qed.

Lemma record_offset_snoc_old ds d (i : nat) :
  (i < length ds)%nat ->
  record_offset PageSize (ds ++ [d]) i = record_offset PageSize ds i.
Proof.
  intros Hi. unfold record_offset. now rewrite take_app_le by lia.
Qed.

Lemma record_offset_snoc_new ds d :
  record_offset PageSize (ds ++ [d]) (length ds)
  = data_size PageSize - used PageSize ds - (Z.of_nat (length d) + W).
Proof.
  unfold record_offset.
  rewrite take_ge by (rewrite length_app; cbn; lia).
  rewrite used_snoc. lia.
Qed.

(** An insert that [fits] granted its full cost keeps the layout. *)
Lemma layout_insert p ds data i p' :
  layout PageSize p ds ->
  fits PageSize p (Z.of_nat (length data) + 2 * W) = true ->
  insert PageSize p data = (Ok i, p') ->
  layout PageSize p' (ds ++ [data]) /\ i = Z.of_nat (length ds).
Proof.
  intros Hlay Hfits Hins.
  destruct (layout_arith _ _ Hlay) as (Hd & Hs & He & Hr & Hu & Hsz & Hfs).
  apply insert_Ok_stores in Hins as (d1 & d2 & d3 & E1 & E2 & E3 & -> & ->).
  destruct Hlay as [Hl _ _ _ Hrec].
  unfold fits in Hfits. apply Z.leb_le in Hfits. rewrite Hfs in Hfits.
  rewrite Hsz in *.
  pose proof (Zle_0_nat (length data)) as Hd0.
  pose proof (Zle_0_nat (length ds)) as Hn0.
  pose proof (store_bytes_length _ _ _ _ E1) as L1.
  pose proof (store_bytes_length _ _ _ _ E2) as L2.
  pose proof (store_bytes_length _ _ _ _ E3) as L3.
  pose proof width_facts as Hw.
  pose proof (record_offset_snoc_new ds data) as Hnew.
  pose proof (used_snoc ds data) as Hus.
  unfold to_offset, sizeof_header in *.
  set (len := Z.of_nat (length data)) in *.
  set (frs := free_region_start (m_header p)) in *.
  set (fre := free_region_end (m_header p)) in *.
  set (n := Z.of_nat (length ds)) in *.
  remember W as w eqn:HW in *.
  assert (Hst : to_size_t (fre - len - w) = fre - len - w)
    by (clear - Hw Hs He Hr Hu Hfits Hd0 Hn0 Hroom Hmax;
        destruct Hw as [[-> HP]|[-> HP]]; wsolve).
  rewrite Hst in *.
  assert (Hm1 : len mod 2 ^ (8 * w) = len)
    by (clear - Hw Hs He Hr Hu Hfits Hd0 Hn0 Hroom Hmax;
        destruct Hw as [[-> HP]|[-> HP]]; wsolve).
  assert (Hm2 : (fre - len - w) mod 2 ^ (8 * w) = fre - len - w)
    by (clear - Hw Hs He Hr Hu Hfits Hd0 Hn0 Hroom Hmax;
        destruct Hw as [[-> HP]|[-> HP]]; wsolve).
  assert (Hm3 : (frs + w) mod 2 ^ (8 * w) = frs + w)
    by (clear - Hw Hs He Hr Hu Hfits Hd0 Hn0 Hroom Hmax;
        destruct Hw as [[-> HP]|[-> HP]]; wsolve).
  rewrite Hm1 in E1. rewrite Hm2 in E3. rewrite Hm2, Hm3.
  assert (Hw0 : 0 <= w /\ 0 <= n * w /\ n * w + w = frs - w
                /\ w * n = n * w)
    by (clear - Hw Hs Hn0; destruct Hw as [[-> HP]|[-> HP]]; lia).
  destruct Hw0 as (Hw0 & Hnw0 & Hnw & Hcomm).
  split; [|reflexivity].
  split; cbn [m_header m_data free_region_start free_region_end];
    unfold sizeof_header; rewrite <- ?HW.
  - lia.
  - rewrite length_app, Nat2Z.inj_add. cbn [length]. fold n.
    clear - Hs Hw. destruct Hw as [[-> HP]|[-> HP]]; lia.
  - lia.
  - lia.
  - intros j d Hj. apply lookup_app_Some in Hj as [Hj|[Hge Hj]].
    + destruct (Hrec j d Hj) as (L0 & Lp & Ld).
      destruct (record_offset_bounds _ _ _ Hj) as (B1 & _ & B3).
      rewrite <- HW in B3.
      pose proof (lookup_lt_Some _ _ _ Hj) as Hjn.
      rewrite record_offset_snoc_old by assumption.
      set (off := record_offset PageSize ds j) in *.
      pose proof (Zle_0_nat (length d)) as Hdl.
      assert (Hjw : 0 <= w * Z.of_nat j /\ w * Z.of_nat j + w <= n * w)
        by (clear - Hw Hjn; subst n;
            destruct Hw as [[-> HP]|[-> HP]]; lia).
      repeat split.
      * rewrite (load_uint_store_uint_disjoint _ _ _ _ _ _ _ E3) by lia.
        unfold load_uint.
        rewrite (load_store_disjoint _ _ _ _ _ _ E2) by lia.
        rewrite (load_store_uint_disjoint _ _ _ _ _ _ _ E1) by lia.
        exact L0.
      * rewrite (load_uint_store_uint_disjoint _ _ _ _ _ _ _ E3) by lia.
        unfold load_uint.
        rewrite (load_store_disjoint _ _ _ _ _ _ E2) by lia.
        rewrite (load_store_uint_disjoint _ _ _ _ _ _ _ E1) by lia.
        exact Lp.
      * rewrite (load_store_uint_disjoint _ _ _ _ _ _ _ E3) by lia.
        rewrite (load_store_disjoint _ _ _ _ _ _ E2) by lia.
        rewrite (load_store_uint_disjoint _ _ _ _ _ _ _ E1) by lia.
        exact Ld.
    + apply list_lookup_singleton_Some in Hj as [Hj0 <-].
      assert (j = length ds) as -> by lia.
      rewrite Hnew. fold n len.
      replace (data_size PageSize - used PageSize ds - (len + w))
        with (fre - len - w) by lia.
      repeat split.
      * rewrite Hcomm.
        rewrite (load_store_uint_same w _ _ _ _ Hw0 E3).
        f_equal. exact Hm2.
      * rewrite (load_uint_store_uint_disjoint _ _ _ _ _ _ _ E3) by lia.
        unfold load_uint.
        rewrite (load_store_disjoint _ _ _ _ _ _ E2) by lia.
        fold (load_uint w d1 (fre - len - w)).
        rewrite (load_store_uint_same w _ _ _ _ Hw0 E1).
        f_equal. exact Hm1.
      * rewrite (load_store_uint_disjoint _ _ _ _ _ _ _ E3) by lia.
        exact (load_store_same _ _ _ _ E2).
Qed.

Lemma packed_layout p ds : packed PageSize p ds -> layout PageSize p ds.
Proof.
  induction 1 as [g Hg|p ds d i p' _ IH Hfits Hins].
  - now apply layout_ctor.
  - now destruct (layout_insert _ _ _ _ _ IH Hfits Hins).
Qed.



Lemma layout_at_view p ds (i : nat) d :
  layout PageSize p ds ->
  ds !! i = Some d ->
  at_view PageSize p (Z.of_nat i)
  = Ok (record_offset PageSize ds i + W, Z.of_nat (length d))
  /\ at_ PageSize p (Z.of_nat i) = Ok d.
Proof.
  intros Hlay Hd.
  destruct (layout_arith _ _ Hlay) as (_ & _ & _ & _ & _ & Hsz & _).
  destruct Hlay as [_ _ _ _ Hrec].
  destruct (Hrec i d Hd) as (L0 & Lp & Ld).
  apply lookup_lt_Some in Hd.
  unfold at_view, at_, contains. rewrite Hsz.
  destruct (Z.ltb_spec (Z.of_nat i) (Z.of_nat (length ds))); [|lia].
  cbn [negb]. unfold size_and_offset_of.
  replace (Z.of_nat i * W) with (W * Z.of_nat i) by lia.
  rewrite L0. cbn. rewrite Lp. cbn. now rewrite Ld.
Qed.

(** X1 ([page()], [size], [empty], [contains], [free_space], [fits],
    [at]).  A newly constructed page satisfies the header invariant, holds
    no record, offers [PageSize - 2 * sizeof(header)] free bytes ([fits]
    grants exactly the requests up to that), and [at] throws
    [std::out_of_range] at every index. *)
Theorem new_page_is_empty garbage :
  Z.of_nat (length garbage) = data_size PageSize ->
  let p := page_ctor PageSize garbage in
  header_invariant PageSize p
  /\ size PageSize p = 0
  /\ empty PageSize p = true
  /\ free_space PageSize p = PageSize - 2 * sizeof_header PageSize
  /\ (forall n, fits PageSize p n = true
                <-> n <= PageSize - 2 * sizeof_header PageSize)
  /\ (forall index, 0 <= index ->
        contains PageSize p index = false
        /\ at_ PageSize p index = Throw out_of_range
        /\ at_view PageSize p index = Throw out_of_range).
Proof.
  intros Hg p.
  pose proof (layout_ctor garbage Hg) as Hlay. fold p in Hlay.
  destruct (layout_arith _ _ Hlay) as (Hd & Hs & He & Hr & Hu & Hsz & Hfs).
  cbn [length used foldr] in *.
  assert (Hfree : free_space PageSize p
                  = PageSize - 2 * sizeof_header PageSize)
    by (unfold sizeof_header; lia).
  split; [unfold header_invariant; destruct width_facts as [[HW _]|[HW _]];
          rewrite HW in *; lia|].
  split; [exact Hsz|]. split; [unfold empty; now rewrite Hsz|].
  split; [exact Hfree|]. split.
  - intros n. unfold fits. rewrite Hfree. apply Z.leb_le.
  - intros index Hidx. unfold at_, at_view, contains. rewrite Hsz.
    assert (Hlt : (index <? Z.of_nat 0) = false)
      by (apply Z.ltb_ge; cbn; lia).
    rewrite Hlt. cbn [negb]. repeat split.
Qed.




(** *** Writing through the view of the non-const [at] *)







End Layout.

(** ** Pages with two-byte offsets: the test in [insert] is enough *)

Section TwoByte.

Variable PageSize : Z.
Hypothesis Hlow : 8 <= PageSize.
Hypothesis Hhigh : PageSize <= 16384.

Lemma two_byte_room : 2 * sizeof_header PageSize <= PageSize.
Proof. rewrite sizeof_header_4 by lia. lia. Qed.

Lemma two_byte_max : PageSize < 2 ^ 32.
Proof. change (2 ^ 32) with 4294967296. lia. Qed.

Lemma built_packed p ds : built PageSize p ds -> packed PageSize p ds.
Proof.
  induction 1 as [g Hg|p ds d i p' Hb IH Hins].
  - now constructor.
  - econstructor; [exact IH| |exact Hins].
    pose proof (built_well_formed _ _ _ Hb) as Hwf.
    destruct (insert_Ok_arith PageSize ltac:(lia) Hhigh _ _ _ _ Hwf Hins)
      as (_ & _ & _ & _ & Hfree & _).
    unfold fits. apply Z.leb_le.
    rewrite offset_width_2 by assumption. lia.
Qed.

Lemma packed_built p ds : packed PageSize p ds -> built PageSize p ds.
Proof.
  induction 1 as [g Hg|p ds d i p' _ IH _ Hins].
  - now constructor.
  - econstructor; eauto.
Qed.

(** X5 ([insert], [fits], [size], [free_space], [at]).  With two-byte
    offsets the out-of-space test of [insert] is sufficient by itself:
    every page built by inserts that returned normally is one whose inserts
    each fitted with payload, length prefix and offset entry.  Its header
    satisfies the invariant, [size()] is the number of records,
    [free_space()] is [PageSize - 8] less the payloads and 4 bytes per
    record, and [at(i)] returns the i-th record. *)
Theorem two_byte_built_page p ds :
  built PageSize p ds ->
  packed PageSize p ds
  /\ header_invariant PageSize p
  /\ size PageSize p = Z.of_nat (length ds)
  /\ free_space PageSize p
     = PageSize - 8 - (used PageSize ds + 2 * Z.of_nat (length ds))
  /\ forall (i : nat) d,
       ds !! i = Some d -> at_ PageSize p (Z.of_nat i) = Ok d.
Proof.
  intros Hp%built_packed. split; [exact Hp|].
  pose proof (packed_layout PageSize two_byte_room two_byte_max _ _ Hp)
    as Hlay.
  destruct (layout_arith PageSize two_byte_room two_byte_max _ _ Hlay)
    as (Hd & Hs & He & Hr & Hu & Hsz & Hfs).
  pose proof (Zle_0_nat (length ds)) as Hn.
  rewrite offset_width_2 in * by assumption.
  split; [unfold header_invariant; lia|]. split; [exact Hsz|].
  split; [lia|].
  intros i d Hd'.
  now destruct (layout_at_view PageSize two_byte_room two_byte_max
                  _ _ _ _ Hlay Hd').
Qed.


End TwoByte.

(** ** [clear()], for every page size *)

(** X8 ([clear], [size], [empty], [contains], [at]).  After [clear()] the
    page reports no record: [size()] is 0, [empty()] holds, [contains] is
    false and [at] throws [std::out_of_range] at every index, while every
    byte of the buffer is still what it was. *)
Theorem clear_empties_page PageSize p index :
  0 <= index ->
  let q := clear PageSize p in
  size PageSize q = 0
  /\ empty PageSize q = true
  /\ contains PageSize q index = false
  /\ at_ PageSize q index = Throw out_of_range
  /\ at_view PageSize q index = Throw out_of_range
  /\ m_data q = m_data p.
Proof.
  intros Hidx q. pose proof (clear_size PageSize p) as Hsz. fold q in Hsz.
  unfold empty, at_, at_view, contains. rewrite Hsz.
  destruct (Z.ltb_spec index 0); [lia|]. repeat split.
Qed.

Lemma clear_empties_page_witness :
  at_ 128 (clear 128 (snd (insert 128 (page_ctor 128 (repeat x00 124))
                                  (ascii_bytes "Hello")))) 0
  = Throw out_of_range.
Proof.
  assert (H0 : 0 <= 0) by lia.
  exact (proj1 (proj2 (proj2 (proj2
           (clear_empties_page 128
              (snd (insert 128 (page_ctor 128 (repeat x00 124))
                           (ascii_bytes "Hello"))) 0 H0))))).
Defined.

(** X9 ([clear], [insert]).  [clear()] leaves [free_region_end] at
    [PageSize], past the end of the buffer, so the insert that follows it
    never returns normally: either it throws [std::bad_alloc] or it stores
    outside the buffer. *)
Theorem insert_after_clear_never_succeeds PageSize p data :
  sizeof_header PageSize <= PageSize < 2 ^ 32 ->
  Z.of_nat (length (m_data p)) = data_size PageSize ->
  fst (insert PageSize (clear PageSize p) data) = Throw bad_alloc
  \/ fst (insert PageSize (clear PageSize p) data) = Undefined.
Proof.
  intros Hsize Hlen.
  destruct (insert PageSize (clear PageSize p) data) as [[i|e|] p'] eqn:Hins;
    cbn [fst]; [exfalso| |now right].
  - apply insert_Ok_stores in Hins as (d1 & d2 & d3 & E1 & E2 & _).
    pose proof (store_bytes_length _ _ _ _ E1) as L1.
    apply store_bytes_Some in E1 as (A1 & B1 & _).
    apply store_bytes_Some in E2 as (A2 & B2 & _).
    rewrite length_le_split in B1. rewrite L1 in B2.
    unfold clear in *. cbn [m_header m_data free_region_end] in *.
    rewrite Hlen in *. unfold data_size, to_offset, sizeof_header in *.
    pose proof (Zle_0_nat (length data)) as Hd0.
    generalize dependent (Z.of_nat (length data)). intros len **.
    clear - Hsize B2 Hd0.
    destruct (width_facts PageSize) as [[HW HP]|[HW HP]];
      rewrite HW in *; wsolve.
  - left. f_equal.
    assert (Hfst : fst (insert PageSize (clear PageSize p) data) = Throw e)
      by now rewrite Hins.
    unfold insert in Hfst. destruct (negb _); [now injection Hfst|].
    destruct (store_uint _ _ _ _); [|discriminate].
    destruct (store_bytes _ _ _); [|discriminate].
    destruct (store_uint _ _ _ _); discriminate.
Qed.

Lemma insert_after_clear_never_succeeds_witness :
  fst (insert 128 (clear 128 (page_ctor 128 (repeat x00 124)))
              (ascii_bytes "Hello")) = Throw bad_alloc
  \/ fst (insert 128 (clear 128 (page_ctor 128 (repeat x00 124)))
                 (ascii_bytes "Hello")) = Undefined.
Proof.
  assert (Hsize : sizeof_header 128 <= 128 < 2 ^ 32)
    by (vm_compute; split; congruence).
  assert (Hlen : Z.of_nat (length (m_data (page_ctor 128 (repeat x00 124))))
                 = data_size 128) by reflexivity.
  exact (insert_after_clear_never_succeeds 128 _ (ascii_bytes "Hello")
           Hsize Hlen).
Defined.

(** ** The stream operators on longer and shorter streams *)

Section Sequences.

Variable PageSize : Z.
Hypothesis Hsize : sizeof_header PageSize <= PageSize < 2 ^ 64.

Lemma page_size_split :
  0 < sizeof_header PageSize
  /\ 0 <= data_size PageSize
  /\ sizeof_header PageSize + data_size PageSize = PageSize.
Proof.
  unfold data_size, sizeof_header in *.
  destruct (width_facts PageSize) as [[HW _]|[HW _]]; rewrite HW in *;
    zsolve.
Qed.

(** With a whole page in the stream, [operator>>] takes the header from
    the first [sizeof(header)] bytes and the buffer from the bytes that
    follow, whatever the page held before. *)
Lemma read_page_enough bs q :
  Z.of_nat (length (m_data q)) = data_size PageSize ->
  PageSize <= Z.of_nat (length bs) ->
  read_page PageSize (mk_istream bs false) q
  = (mk_istream (drop (Z.to_nat PageSize) bs) false,
     mk_page
       (header_of_bytes PageSize
          (take (Z.to_nat (sizeof_header PageSize)) bs))
       (take (Z.to_nat (data_size PageSize))
             (drop (Z.to_nat (sizeof_header PageSize)) bs))).
Proof.
  intros Hq Hbs. destruct page_size_split as (Hh & Hd & Hsum).
  pose proof (length_header_bytes PageSize (m_header q)) as Hhq.
  unfold read_page, is_read. cbn [is_fail is_bytes].
  rewrite Hq, !length_take, !length_drop.
  replace (Z.of_nat (Z.to_nat (sizeof_header PageSize) `min` length bs)
           <? sizeof_header PageSize) with false
    by (symmetry; apply Z.ltb_ge; lia).
  cbn [is_fail is_bytes].
  replace (Z.of_nat (Z.to_nat (data_size PageSize)
                     `min` (length bs
                            - Z.to_nat (sizeof_header PageSize)))
           <? data_size PageSize) with false
    by (symmetry; apply Z.ltb_ge; lia).
  unfold overwrite. rewrite !length_take, !length_drop.
  rewrite (drop_ge (header_bytes _ _)), (drop_ge (m_data q)) by lia.
  rewrite !app_nil_r, drop_drop. do 3 f_equal. lia.
Qed.

Lemma write_page_app os p :
  write_page PageSize os p = os ++ write_page PageSize [] p.
Proof. unfold write_page. cbn [app]. now rewrite app_assoc. Qed.

Lemma length_write_page p :
  Z.of_nat (length (m_data p)) = data_size PageSize ->
  Z.of_nat (length (write_page PageSize [] p)) = PageSize.
Proof.
  intros Hp. destruct page_size_split as (_ & _ & Hsum).
  unfold write_page. cbn [app].
  rewrite length_app, Nat2Z.inj_add, length_header_bytes. lia.
Qed.

(** Reading a written page back, with more bytes after it in the stream. *)
Lemma read_write_page_rest p q rest :
  well_formed PageSize p ->
  Z.of_nat (length (m_data q)) = data_size PageSize ->
  read_page PageSize
            (mk_istream (write_page PageSize [] p ++ rest) false) q
  = (mk_istream rest false, p).
Proof.
  intros [Hl Hs He] Hq. destruct page_size_split as (Hh & Hd & Hsum).
  pose proof (length_write_page p Hl) as Hlen.
  pose proof (length_header_bytes PageSize (m_header p)) as Hhp.
  rewrite read_page_enough by (try assumption; rewrite length_app; lia).
  f_equal.
  - f_equal. apply drop_app_length'. lia.
  - unfold write_page. cbn [app]. rewrite <- !app_assoc.
    rewrite take_app_length', drop_app_length' by lia.
    rewrite take_app_length' by lia.
    rewrite header_of_header_bytes by assumption. now destruct p.
Qed.

(** X10 ([operator>>]).  [operator>>] succeeds exactly when the stream
    still holds a whole page: with at least [PageSize] bytes it consumes
    exactly [PageSize] of them, leaves the stream good, and the page it
    yields does not depend on what the target page held; with fewer bytes
    it sets the fail bit; and on a stream that has already failed it reads
    nothing and leaves a well-formed page as it was. *)
Theorem read_page_takes_one_page bs q :
  Z.of_nat (length (m_data q)) = data_size PageSize ->
  (PageSize <= Z.of_nat (length bs) ->
   forall q',
     Z.of_nat (length (m_data q')) = data_size PageSize ->
     fst (read_page PageSize (mk_istream bs false) q)
     = mk_istream (drop (Z.to_nat PageSize) bs) false
     /\ snd (read_page PageSize (mk_istream bs false) q)
        = snd (read_page PageSize (mk_istream bs false) q'))
  /\ (Z.of_nat (length bs) < PageSize ->
      is_fail (fst (read_page PageSize (mk_istream bs false) q)) = true)
  /\ (well_formed PageSize q ->
      read_page PageSize (mk_istream bs true) q = (mk_istream bs true, q)).
Proof.
  intros Hq. destruct page_size_split as (Hh & Hd & Hsum).
  pose proof (length_header_bytes PageSize (m_header q)) as Hhq.
  split; [|split].
  - intros Hbs q' Hq'. now rewrite !read_page_enough by assumption.
  - intros Hbs. unfold read_page, is_read. cbn [is_fail is_bytes].
    rewrite length_take.
    destruct (Z.ltb_spec
                (Z.of_nat (Z.to_nat (sizeof_header PageSize)
                           `min` length bs))
                (sizeof_header PageSize)) as [Hshort|Hlong];
      cbn [is_fail is_bytes fst]; [reflexivity|].
    rewrite length_take, length_drop. apply Z.ltb_lt. lia.
  - intros [_ Hs He]. unfold read_page, is_read. cbn [is_fail].
    unfold overwrite. cbn [length app]. rewrite !drop_0.
    rewrite header_of_header_bytes by assumption. now destruct q.
Qed.

(** X11 ([operator<<], [operator>>]).  [operator<<] appends exactly
    [PageSize] bytes to the stream, and pages written one after the other
    are read back one after the other: after writing [p1] and then [p2],
    two reads yield [p1] and then [p2] and leave the stream good and
    empty. *)
Theorem pages_read_back_in_order os p1 p2 q1 q2 :
  well_formed PageSize p1 ->
  well_formed PageSize p2 ->
  Z.of_nat (length (m_data q1)) = data_size PageSize ->
  Z.of_nat (length (m_data q2)) = data_size PageSize ->
  Z.of_nat (length (write_page PageSize os p1))
  = Z.of_nat (length os) + PageSize
  /\ take (length os) (write_page PageSize os p1) = os
  /\ let stream :=
       write_page PageSize (write_page PageSize [] p1) p2 in
     let '(s1, r1) := read_page PageSize (mk_istream stream false) q1 in
     let '(s2, r2) := read_page PageSize s1 q2 in
     r1 = p1 /\ r2 = p2 /\ s2 = mk_istream [] false.
Proof.
  intros Hp1 Hp2 Hq1 Hq2. split; [|split].
  - rewrite write_page_app, length_app, Nat2Z.inj_add.
    rewrite length_write_page; [reflexivity|]. now destruct Hp1.
  - rewrite write_page_app. apply take_app_length.
  - cbn zeta. rewrite (write_page_app (write_page PageSize [] p1) p2).
    rewrite read_write_page_rest by assumption.
    rewrite <- (app_nil_r (write_page PageSize [] p2)).
    rewrite read_write_page_rest by assumption. auto.
Qed.

End Sequences.

Lemma read_page_takes_one_page_witness :
  is_fail (fst (read_page 128 (mk_istream (repeat x00 100) false)
                          (page_ctor 128 (repeat x01 124)))) = true.
Proof.
  assert (Hsize : sizeof_header 128 <= 128 < 2 ^ 64)
    by (vm_compute; split; congruence).
  assert (Hq : Z.of_nat (length (m_data (page_ctor 128 (repeat x01 124))))
               = data_size 128) by reflexivity.
  assert (Hshort : Z.of_nat (length (repeat x00 100)) < 128)
    by (vm_compute; congruence).
  exact (proj1 (proj2
           (read_page_takes_one_page 128 Hsize (repeat x00 100) _ Hq))
           Hshort).
Defined.

Lemma pages_read_back_in_order_witness :
  let p0 := page_ctor 128 (repeat x00 124) in
  let p1 := snd (insert 128 p0 (ascii_bytes "Hello")) in
  let p2 := snd (insert 128 p1 (ascii_bytes "World")) in
  let stream := write_page 128 (write_page 128 [] p1) p2 in
  let '(s1, r1) := read_page 128 (mk_istream stream false) p0 in
  let '(s2, r2) := read_page 128 s1 p0 in
  r1 = p1 /\ r2 = p2 /\ s2 = mk_istream [] false.
Proof.
  intros p0 p1 p2.
  assert (Hsize : sizeof_header 128 <= 128 < 2 ^ 64)
    by (vm_compute; split; congruence).
  assert (Hb1 : built 128 p1 [ascii_bytes "Hello"]).
  { apply (built_insert 128 p0 [] _ 0); [|reflexivity].
    apply built_ctor. reflexivity. }
  assert (Hb2 : built 128 p2 [ascii_bytes "Hello"; ascii_bytes "World"]).
  { apply (built_insert 128 p1 [ascii_bytes "Hello"] _ 1);
      [exact Hb1|reflexivity]. }
  assert (Hq : Z.of_nat (length (m_data p0)) = data_size 128)
    by reflexivity.
  exact (proj2 (proj2
           (pages_read_back_in_order 128 Hsize [] p1 p2 p0 p0
              (built_well_formed _ _ _ Hb1) (built_well_formed _ _ _ Hb2)
              Hq Hq))).
Defined.

(** ** The page of the tests: [page<128>] holding "Hello" and "World" *)

Lemma page128_room : 2 * sizeof_header 128 <= 128.
Proof. vm_compute. congruence. Qed.

Lemma page128_max : 128 < 2 ^ 32.
Proof. vm_compute. reflexivity. Qed.

Lemma page128_built :
  let p0 := page_ctor 128 (repeat x00 124) in
  let p1 := snd (insert 128 p0 (ascii_bytes "Hello")) in
  let p2 := snd (insert 128 p1 (ascii_bytes "World")) in
  built 128 p2 [ascii_bytes "Hello"; ascii_bytes "World"].
Proof.
  intros p0 p1 p2.
  apply (built_insert 128 p1 [ascii_bytes "Hello"] _ 1); [|reflexivity].
  apply (built_insert 128 p0 [] _ 0); [|reflexivity].
  apply built_ctor. reflexivity.
Qed.


Lemma new_page_is_empty_witness :
  free_space 128 (page_ctor 128 (repeat x00 124))
  = 128 - 2 * sizeof_header 128.
Proof.
  assert (Hg : Z.of_nat (length (repeat x00 124)) = data_size 128)
    by reflexivity.
  exact (proj1 (proj2 (proj2 (proj2
           (new_page_is_empty 128 page128_room page128_max _ Hg))))).
Defined.


(** The same on a page with four-byte offsets, [page<16400>]. *)







Lemma page128_low : 8 <= 128.
Proof. vm_compute. congruence. Qed.

Lemma page128_high : 128 <= 16384.
Proof. vm_compute. congruence. Qed.

Lemma two_byte_built_page_witness :
  let p0 := page_ctor 128 (repeat x00 124) in
  let p1 := snd (insert 128 p0 (ascii_bytes "Hello")) in
  let p2 := snd (insert 128 p1 (ascii_bytes "World")) in
  header_invariant 128 p2.
Proof.
  intros p0 p1 p2.
  exact (proj1 (proj2
           (two_byte_built_page 128 page128_low page128_high p2 _
              page128_built))).
Defined.


End PageLayout.

(** * The cache over scripts of operations *)

Module LruScripts.

Import Lru LruFacts.

(** ** The list [recent] *)

Lemma recent_cons (b m len : nat) :
  (len <= m)%nat ->
  recent b (S m) (S len) = (m, Some (b + m)%nat) :: recent b m len.
Proof.
  intros Hle. unfold recent.
  replace (S m - S len)%nat with (m - len)%nat by lia.
  rewrite seq_S, rev_app_distr. cbn [rev app fmap list_fmap].
  repeat f_equal; lia.
Qed.

Lemma recent_removelast (b m len : nat) :
  (S len <= m)%nat ->
  removelast (recent b m (S len)) = recent b m len.
Proof.
  intros Hle. unfold recent. cbn [seq rev].
  rewrite fmap_app. cbn [fmap list_fmap].
  rewrite removelast_last. do 2 f_equal. f_equal. lia.
Qed.

Lemma length_recent (b m len : nat) : length (recent b m len) = len.
Proof. unfold recent. now rewrite length_fmap, length_rev, length_seq. Qed.

Lemma elem_of_rev_iff {A} (x : A) (l : list A) : x ∈ rev l <-> x ∈ l.
Proof. rewrite !list_elem_of_In. symmetry. apply in_rev. Qed.

Lemma elem_of_recent (b m len n : nat) p :
  (len <= m)%nat ->
  (n, p) ∈ recent b m len
  <-> p = Some (b + n)%nat /\ (m - len <= n < m)%nat.
Proof.
  intros Hle. unfold recent. rewrite list_elem_of_fmap. split.
  - intros (j & [= -> ->] & Hj). rewrite elem_of_rev_iff, elem_of_seq in Hj.
    split; [reflexivity|lia].
  - intros (-> & Hn). exists n. split; [reflexivity|].
    rewrite elem_of_rev_iff, elem_of_seq. lia.
Qed.

(** ** Scripts *)

Section WithKey.

Context {Key : Type} `{Countable Key}.

Implicit Types (c : lru (Key:=Key)) (w : world) (key : Key).

Lemma run_app (s : world * lru (Key:=Key)) ops1 ops2 :
  run s (ops1 ++ ops2)
  = match run s ops1 with
    | Some s' => run s' ops2
    | None => None
    end.
Proof.
  revert s. induction ops1 as [|a ops1 IH]; intros s; cbn; [reflexivity|].
  destruct (step s a); [apply IH|reflexivity].
Qed.

(** [o] is alive exactly when it has an owner outside the cache or a list
    node holds it. *)
Lemma alive_iff w c o :
  alive w c o = true <-> (0 < ext w o)%nat \/ held_in (m_list c) o.
Proof.
  unfold alive, use_count, list_owners, held_in.
  rewrite Nat.ltb_lt. split.
  - intros Hpos. destruct (ext w o) as [|e]; [right|left; lia].
    eapply filter_nonempty_Exists. exact Hpos.
  - intros [Hext|Hheld]; [lia|].
    eapply filter_nonempty_Exists in Hheld.
    eapply Nat.lt_le_trans; [exact Hheld|apply Nat.le_add_l].
Qed.

Lemma splice_front_is_Some {A} (l : list (list_iterator * A)) n x :
  (n, x) ∈ l -> exists l', splice_front l n = Some l'.
Proof.
  intros Hin. unfold splice_front.
  destruct (list_find_elem_of (fun nd => fst nd = n) l (n, x) Hin eq_refl)
    as [[i nd] ->].
  eauto.
Qed.

(** The cache after inserting distinct keys by value into a new cache. *)
Lemma run_fresh_inserts (cap : N) w0 (ks : list Key) :
  (1 <= cap)%N ->
  NoDup ks ->
  exists c,
    run (w0, lru_ctor cap) (OInsertValue <$> ks)
    = Some (mk_world (ext w0) (next_obj w0 + length ks), c)
    /\ m_list c
       = recent (next_obj w0) (length ks)
                (N.to_nat cap `min` length ks)
    /\ m_size c = cap
    /\ next_node c = length ks
    /\ forall (i : nat) k,
         ks !! i = Some k ->
         m_map c !! k = Some (Some (next_obj w0 + i)%nat)
         /\ m_iter_map c !! k = Some i.
Proof.
  intros Hcap. induction ks as [|k ks IH] using rev_ind; intros Hnd.
  - exists (lru_ctor cap). cbn [fmap list_fmap run length].
    rewrite Nat.add_0_r. split; [now destruct w0|].
    split; [unfold recent; now rewrite Nat.min_0_r|].
    do 2 (split; [reflexivity|]).
    intros i k Hk. rewrite lookup_nil in Hk. discriminate.
  - apply NoDup_app in Hnd as (Hnd & Hfresh & _).
    destruct (IH Hnd) as (c & Hrun & Hlist & Hsz & Hnn & Hmaps).
    rewrite fmap_app, run_app, Hrun. cbn [fmap list_fmap run step].
    unfold insert_value. cbn [next_obj ext].
    pose proof (insert_defined c k
                  (Some (next_obj w0 + length ks)%nat)
                  ltac:(rewrite Hsz; exact Hcap)) as Hok.
    destruct (insert c k (Some (next_obj w0 + length ks)%nat))
      as [r c'] eqn:Hins.
    cbn in Hok. subst r.
    apply insert_Ok in Hins as (l & Hl & ->).
    eexists. split.
    { do 3 f_equal. rewrite length_app. cbn. lia. }
    cbn [m_list m_map m_iter_map m_size next_node].
    rewrite length_app. cbn [length].
    replace (length ks + 1)%nat with (S (length ks)) by lia.
    split; [|split; [assumption|split; [lia|]]].
    + rewrite Hnn. rewrite Hsz, Hlist, length_recent in Hl.
      destruct (N.leb_spec cap
                  (N.of_nat (N.to_nat cap `min` length ks)))
        as [Hfull|Hroom].
      * destruct Hl as [_ ->].
        assert (Hmin : (N.to_nat cap `min` length ks = N.to_nat cap)%nat)
          by lia.
        rewrite Hmin.
        replace (N.to_nat cap `min` S (length ks))%nat
          with (N.to_nat cap) by lia.
        destruct (N.to_nat cap) as [|len] eqn:Hc; [lia|].
        rewrite recent_removelast by lia.
        now rewrite recent_cons by lia.
      * subst l.
        replace (N.to_nat cap `min` length ks)%nat with (length ks) by lia.
        replace (N.to_nat cap `min` S (length ks))%nat
          with (S (length ks)) by lia.
        now rewrite recent_cons by lia.
    + intros i k' Hk'. apply lookup_app_Some in Hk' as [Hk'|[Hge Hk']].
      * assert (k <> k').
        { intros ->. eapply Hfresh.
          - eapply list_elem_of_lookup_2, Hk'.
          - apply list_elem_of_here. }
        rewrite !lookup_insert_ne by done. now apply Hmaps.
      * apply list_lookup_singleton_Some in Hk' as [Hi <-].
        rewrite !lookup_insert_eq, Hnn.
        replace i with (length ks) by lia. auto.
Qed.

(** A key whose stored position designates a list node that holds its
    value is found by [get]. *)
Lemma get_hit w c key o n :
  m_map c !! key = Some (Some o) ->
  m_iter_map c !! key = Some n ->
  (n, Some o) ∈ m_list c ->
  fst (get w c key) = Ok (Some o).
Proof.
  intros Hm Hi Hin. unfold get. rewrite Hm. cbn [lock].
  assert (Ha : alive w c o = true).
  { apply alive_iff. right. apply Exists_exists. eauto. }
  rewrite Ha, Hi.
  destruct (splice_front_is_Some _ _ _ Hin) as [l' ->]. reflexivity.
Qed.

(** X12 ([insert(key, value)], [get]; the overflow test).  After inserting
    distinct keys by value into a new cache of capacity at least 1, with no
    owner outside the cache, the list holds the nodes of the latest
    [capacity] inserts, latest first, and [get] resolves exactly the keys of
    those inserts: every earlier key yields [nullptr]. *)
Theorem fresh_keys_overflow (cap : N) w0 (ks : list Key) :
  (1 <= cap)%N ->
  NoDup ks ->
  (forall o, (next_obj w0 <= o)%nat -> ext w0 o = 0%nat) ->
  exists w c,
    run (w0, lru_ctor cap) (OInsertValue <$> ks) = Some (w, c)
    /\ m_list c
       = recent (next_obj w0) (length ks) (N.to_nat cap `min` length ks)
    /\ forall (i : nat) k,
         ks !! i = Some k ->
         fst (get w c k)
         = if decide (length ks - i <= N.to_nat cap)%nat
           then Ok (Some (next_obj w0 + i)%nat)
           else Ok None.
Proof.
  intros Hcap Hnd Hext.
  destruct (run_fresh_inserts cap w0 ks Hcap Hnd)
    as (c & Hrun & Hlist & Hsz & Hnn & Hmaps).
  eexists _, c. split; [exact Hrun|]. split; [exact Hlist|].
  intros i k Hk. destruct (Hmaps i k Hk) as (Hm & Hi).
  pose proof (lookup_lt_Some _ _ _ Hk) as Hlt.
  destruct (decide (length ks - i <= N.to_nat cap)%nat) as [Hin|Hout].
  - eapply get_hit; eauto. rewrite Hlist.
    apply elem_of_recent; [lia|]. split; [reflexivity|lia].
  - unfold get. rewrite Hm. cbn [lock].
    assert (Ha : alive (mk_world (ext w0) (next_obj w0 + length ks)) c
                       (next_obj w0 + i)%nat = false).
    { apply not_true_is_false. rewrite alive_iff. cbn [ext].
      rewrite Hext by lia. intros [Hpos|Hheld]; [lia|].
      apply Exists_exists in Hheld as ([n p] & Hnp & Hp).
      rewrite Hlist in Hnp. apply elem_of_recent in Hnp as (-> & Hn); [|lia].
      cbn in Hp. injection Hp as Hp. lia. }
    now rewrite Ha.
Qed.

(** X13 ([get]).  A [get] that returns normally neither adds nor removes a
    list node, so it changes the liveness of no object and not the
    capacity; what it returns, when not [nullptr], is the live object the
    key's reference refers to; and repeating it at once returns the same
    and changes nothing more. *)
Theorem get_keeps_nodes_and_repeats w c key r c' :
  get w c key = (Ok r, c') ->
  m_list c' ≡ₚ m_list c
  /\ (forall o, alive w c' o = alive w c o)
  /\ m_size c' = m_size c
  /\ (forall o, r = Some o ->
                m_map c !! key = Some (Some o) /\ alive w c o = true)
  /\ get w c' key = (Ok r, c').
Proof.
  intros Hget.
  assert (Hperm : m_list c' ≡ₚ m_list c /\ m_size c' = m_size c).
  { unfold get in Hget.
    destruct (m_map c !! key) as [wp|]; [|now injection Hget as _ <-].
    destruct (lock w c wp) as [o|]; [|now injection Hget as _ <-].
    destruct (m_iter_map c !! key) as [it|]; [|discriminate].
    unfold splice_front in Hget.
    destruct (list_find _ _) as [[i nd]|] eqn:Hf; [|discriminate].
    injection Hget as _ <-. cbn.
    apply list_find_Some in Hf as (Hi & _).
    split; [symmetry; now apply delete_Permutation|reflexivity]. }
  destruct Hperm as (Hperm & Hsz).
  assert (Halive : forall o, alive w c' o = alive w c o).
  { intros o. unfold alive, use_count, list_owners. now rewrite Hperm. }
  do 3 (split; [assumption|]).
  unfold get in *.
  destruct (m_map c !! key) as [wp|] eqn:Hm.
  - destruct wp as [o|]; cbn [lock] in *.
    + destruct (alive w c o) eqn:Ha.
      * destruct (m_iter_map c !! key) as [it|] eqn:Hit; [|discriminate].
        unfold splice_front in Hget.
        destruct (list_find _ _) as [[i nd]|] eqn:Hf; [|discriminate].
        injection Hget as <- <-. cbn [m_map m_iter_map m_list] in *.
        apply list_find_Some in Hf as (_ & Hnd & _).
        split; [intros o' [= <-]; auto|].
        rewrite Hm. cbn [lock]. rewrite Halive, Ha, Hit.
        destruct nd as [n p]. cbn in Hnd. subst n.
        now rewrite splice_front_head.
      * injection Hget as <- <-. cbn [m_map]. split; [discriminate|].
        now rewrite lookup_delete_eq.
    + injection Hget as <- <-. cbn [m_map]. split; [discriminate|].
      now rewrite lookup_delete_eq.
  - injection Hget as <- <-. split; [discriminate|]. now rewrite Hm.
Qed.

(** ** How long a key stays after it was used *)

Lemma step_inserts_other w c key a :
  inserts_other key a ->
  (1 <= m_size c)%N ->
  exists key' ptr w',
    key' <> key
    /\ step (w, c) a = Some (w', snd (insert c key' ptr))
    /\ ext w' = ext w
    /\ insert c key' ptr = (Ok tt, snd (insert c key' ptr)).
Proof.
  intros Ha Hcap.
  destruct a as [key' ptr|key'|key'|o|o]; cbn in Ha; try contradiction.
  - pose proof (insert_defined c key' ptr Hcap) as Hok.
    exists key', ptr, w. cbn [step].
    destruct (insert c key' ptr) as [r c'] eqn:Hi. cbn in Hok. subst r.
    auto.
  - pose proof (insert_defined c key' (Some (next_obj w)) Hcap) as Hok.
    exists key', (Some (next_obj w)), (mk_world (ext w) (S (next_obj w))).
    cbn [step]. unfold insert_value.
    destruct (insert c key' (Some (next_obj w))) as [r c'] eqn:Hi.
    cbn in Hok. subst r. auto.
Qed.

(** One insert under another key moves the node of [key] one place back,
    or removes it when it was the tail of a full list. *)
Lemma insert_other_front (cap : N) c key key' ptr o n (idx : nat) :
  bookkeeping cap c ->
  positions_ok c ->
  key' <> key ->
  m_map c !! key = Some (Some o) ->
  m_iter_map c !! key = Some n ->
  m_list c !! idx = Some (n, Some o) ->
  insert c key' ptr = (Ok tt, snd (insert c key' ptr)) ->
  let c' := snd (insert c key' ptr) in
  m_map c' !! key = Some (Some o)
  /\ m_iter_map c' !! key = Some n
  /\ ((S idx < N.to_nat cap)%nat -> m_list c' !! S idx = Some (n, Some o))
  /\ ((N.to_nat cap <= S idx)%nat -> n ∉ fst <$> m_list c').
Proof.
  intros (Hsz & Hlen & _) (Hnd & Hfresh & _) Hne Hm Hi Hidx Hins c'.
  subst c'. apply insert_Ok in Hins as (l & Hl & ->).
  cbn [m_map m_iter_map m_list].
  rewrite !lookup_insert_ne by done.
  do 2 (split; [assumption|]).
  pose proof (lookup_lt_Some _ _ _ Hidx) as Hlt.
  rewrite Hsz in Hl.
  destruct (N.leb_spec cap (N.of_nat (length (m_list c))))
    as [Hfull|Hroom].
  - destruct Hl as [_ ->]. rewrite removelast_firstn_len. split.
    + intros Hs. rewrite lookup_cons_ne_0, Nat.pred_succ by lia.
      rewrite lookup_take_lt by lia. exact Hidx.
    + intros Hs. assert (Hlast : idx = pred (length (m_list c))) by lia.
      rewrite fmap_cons, not_elem_of_cons. cbn [fst]. split.
      * apply list_elem_of_lookup_2, Hfresh in Hidx. lia.
      * rewrite <- (take_drop (pred (length (m_list c))) (m_list c)),
          fmap_app in Hnd.
        apply NoDup_app in Hnd as (_ & Hdisj & _).
        intros Hin. apply (Hdisj _ Hin).
        apply list_elem_of_fmap. exists (n, Some o). split; [reflexivity|].
        apply list_elem_of_lookup. exists 0%nat.
        rewrite lookup_drop, Nat.add_0_r, <- Hlast. exact Hidx.
  - subst l. split.
    + intros _. exact Hidx.
    + intros Hs. lia.
Qed.

(** Once the node of [key] is gone, inserts under other keys do not bring
    it back. *)
Lemma insert_other_gone c key key' ptr wp n :
  positions_ok c ->
  key' <> key ->
  m_map c !! key = Some wp ->
  m_iter_map c !! key = Some n ->
  n ∉ fst <$> m_list c ->
  insert c key' ptr = (Ok tt, snd (insert c key' ptr)) ->
  let c' := snd (insert c key' ptr) in
  m_map c' !! key = Some wp
  /\ m_iter_map c' !! key = Some n
  /\ n ∉ fst <$> m_list c'.
Proof.
  intros (_ & _ & Hold & _) Hne Hm Hi Hgone Hins c'.
  subst c'. apply insert_Ok in Hins as (l & Hl & ->).
  cbn [m_map m_iter_map m_list].
  rewrite !lookup_insert_ne by done.
  do 2 (split; [assumption|]).
  rewrite fmap_cons, not_elem_of_cons. cbn [fst]. split.
  - apply Hold in Hi. lia.
  - intros Hin. apply Hgone.
    assert (Hsub : l ⊆ m_list c).
    { destruct (m_size c <=? _)%N.
      - destruct Hl as [_ ->]. rewrite removelast_firstn_len.
        apply subseteq_take.
      - now subst l. }
    apply list_elem_of_fmap in Hin as (nd & -> & Hnd).
    apply list_elem_of_fmap_2. now apply Hsub.
Qed.

Lemma inserts_keep_front (cap : N) key o n ins :
  forall w c (idx : nat),
    Forall (inserts_other key) ins ->
    bookkeeping cap c -> positions_ok c -> (1 <= cap)%N ->
    m_map c !! key = Some (Some o) ->
    m_iter_map c !! key = Some n ->
    m_list c !! idx = Some (n, Some o) ->
    (idx + length ins < N.to_nat cap)%nat ->
    exists w' c',
      run (w, c) ins = Some (w', c')
      /\ m_map c' !! key = Some (Some o)
      /\ m_iter_map c' !! key = Some n
      /\ (n, Some o) ∈ m_list c'.
Proof.
  induction ins as [|a ins IH]; intros w c idx Hall Hb Hp Hcap Hm Hi Hidx Hn.
  - exists w, c. cbn. repeat split; try assumption.
    eapply list_elem_of_lookup_2, Hidx.
  - apply Forall_cons in Hall as (Ha & Hall). cbn [length] in Hn.
    pose proof Hb as (Hsz & _).
    destruct (step_inserts_other w c key a Ha ltac:(rewrite Hsz; exact Hcap))
      as (key' & ptr & w' & Hne & Hstep & _ & Hins).
    destruct (insert_other_front cap c key key' ptr o n idx
                Hb Hp Hne Hm Hi Hidx Hins) as (Hm' & Hi' & Hkeep & _).
    cbn [run]. rewrite Hstep.
    apply (IH w' _ (S idx)); try assumption; try lia.
    + eapply insert_bookkeeping; eauto.
    + eapply insert_positions; eauto.
    + apply Hkeep. lia.
Qed.

Lemma inserts_stay_gone key wp n ins :
  forall w c,
    Forall (inserts_other key) ins ->
    positions_ok c -> (1 <= m_size c)%N ->
    m_map c !! key = Some wp ->
    m_iter_map c !! key = Some n ->
    n ∉ fst <$> m_list c ->
    exists w' c',
      run (w, c) ins = Some (w', c')
      /\ ext w' = ext w
      /\ m_map c' !! key = Some wp
      /\ m_iter_map c' !! key = Some n
      /\ n ∉ fst <$> m_list c'.
Proof.
  induction ins as [|a ins IH]; intros w c Hall Hp Hcap Hm Hi Hgone.
  - exists w, c. cbn. auto.
  - apply Forall_cons in Hall as (Ha & Hall).
    destruct (step_inserts_other w c key a Ha Hcap)
      as (key' & ptr & w' & Hne & Hstep & Hext & Hins).
    destruct (insert_other_gone c key key' ptr wp n Hp Hne Hm Hi Hgone Hins)
      as (Hm' & Hi' & Hgone').
    cbn [run]. rewrite Hstep.
    destruct (IH w' (snd (insert c key' ptr)) Hall) as
      (w'' & c'' & Hrun & Hext' & Hrest); try assumption.
    + eapply insert_positions; eauto.
    + apply insert_Ok in Hins as (l & _ & ->). exact Hcap.
    + exists w'', c''. split; [exact Hrun|]. split; [congruence|exact Hrest].
Qed.

Lemma inserts_evict_front (cap : N) key o n ins :
  forall w c (idx : nat),
    Forall (inserts_other key) ins ->
    bookkeeping cap c -> positions_ok c -> (1 <= cap)%N ->
    m_map c !! key = Some (Some o) ->
    m_iter_map c !! key = Some n ->
    m_list c !! idx = Some (n, Some o) ->
    (N.to_nat cap <= idx + length ins)%nat ->
    exists w' c',
      run (w, c) ins = Some (w', c')
      /\ ext w' = ext w
      /\ m_map c' !! key = Some (Some o)
      /\ m_iter_map c' !! key = Some n
      /\ n ∉ fst <$> m_list c'.
Proof.
  induction ins as [|a ins IH]; intros w c idx Hall Hb Hp Hcap Hm Hi Hidx Hn.
  - pose proof (lookup_lt_Some _ _ _ Hidx) as Hlt.
    destruct Hb as (_ & Hlen & _). cbn [length] in Hn. lia.
  - apply Forall_cons in Hall as (Ha & Hall). cbn [length] in Hn.
    pose proof Hb as (Hsz & Hlen & _).
    pose proof (lookup_lt_Some _ _ _ Hidx) as Hlt.
    destruct (step_inserts_other w c key a Ha ltac:(rewrite Hsz; exact Hcap))
      as (key' & ptr & w' & Hne & Hstep & Hext & Hins).
    destruct (insert_other_front cap c key key' ptr o n idx
                Hb Hp Hne Hm Hi Hidx Hins) as (Hm' & Hi' & Hkeep & Hgone).
    pose proof (insert_bookkeeping _ _ _ _ _ _ Hb Hins) as Hb'.
    pose proof (insert_positions _ _ _ _ _ Hp Hins) as Hp'.
    cbn [run]. rewrite Hstep.
    destruct (decide (S idx < N.to_nat cap)%nat) as [Hin|Hout].
    + destruct (IH w' _ (S idx) Hall Hb' Hp' Hcap Hm' Hi' (Hkeep Hin)
                  ltac:(lia)) as (w'' & c'' & Hrun & Hext' & Hrest).
      exists w'', c''. split; [exact Hrun|]. split; [congruence|exact Hrest].
    + destruct (inserts_stay_gone key (Some o) n ins w' _ Hall Hp'
                  ltac:(destruct Hb' as (-> & _); exact Hcap)
                  Hm' Hi' (Hgone ltac:(lia)))
        as (w'' & c'' & Hrun & Hext' & Hrest).
      exists w'', c''. split; [exact Hrun|]. split; [congruence|exact Hrest].
Qed.

Lemma get_hit_front w c key o c1 :
  positions_ok c ->
  get w c key = (Ok (Some o), c1) ->
  exists n,
    m_map c1 !! key = Some (Some o)
    /\ m_iter_map c1 !! key = Some n
    /\ m_list c1 !! 0%nat = Some (n, Some o).
Proof.
  intros (_ & _ & _ & _ & Hsame). unfold get.
  destruct (m_map c !! key) as [wp|] eqn:Hm; [|discriminate].
  destruct (lock w c wp) as [o'|] eqn:Hlock; [|discriminate].
  destruct (m_iter_map c !! key) as [it|] eqn:Hit; [|discriminate].
  unfold splice_front.
  destruct (list_find _ _) as [[i [n p]]|] eqn:Hf; [|discriminate].
  intros [= -> <-]. cbn [m_map m_iter_map m_list].
  apply list_find_Some in Hf as (Hi & Hn & _). cbn in Hn. subst n.
  assert (Hp : m_map c !! key = Some p)
    by (eapply Hsame; [exact Hit|eapply list_elem_of_lookup_2, Hi]).
  assert (wp = Some o).
  { revert Hlock. destruct wp as [o''|]; cbn [lock]; [|discriminate].
    destruct (alive w c o''); congruence. }
  subst wp. assert (p = Some o) as -> by congruence.
  exists it. repeat split; assumption || reflexivity.
Qed.

Lemma insert_front c key o :
  insert c key (Some o) = (Ok tt, snd (insert c key (Some o))) ->
  m_map (snd (insert c key (Some o))) !! key = Some (Some o)
  /\ m_iter_map (snd (insert c key (Some o))) !! key = Some (next_node c)
  /\ m_list (snd (insert c key (Some o))) !! 0%nat
     = Some (next_node c, Some o).
Proof.
  intros (l & _ & ->)%insert_Ok. cbn [m_map m_iter_map m_list].
  now rewrite !lookup_insert_eq.
Qed.

Lemma insert_defined_eq c key ptr :
  (1 <= m_size c)%N ->
  insert c key ptr = (Ok tt, snd (insert c key ptr)).
Proof.
  intros Hcap. pose proof (insert_defined c key ptr Hcap) as Hok.
  destruct (insert c key ptr) as [r c']. cbn in *. now subst r.
Qed.

(** X14 ([insert], [get]; the recency test).  On a cache of capacity
    [cap >= 1], a key that [get] has just returned, or that has just been
    inserted, is still returned by [get] after fewer than [cap] inserts
    under other keys: each such insert moves its node one place towards the
    tail, and only the tail of a full list is evicted. *)
Theorem used_key_survives_inserts (cap : N) w0 ops w c key o ins :
  (1 <= cap)%N ->
  run (w0, lru_ctor cap) ops = Some (w, c) ->
  Forall (inserts_other key) ins ->
  (N.of_nat (length ins) < cap)%N ->
  (fst (get w c key) = Ok (Some o) ->
   exists w' c',
     run (w, snd (get w c key)) ins = Some (w', c')
     /\ fst (get w' c' key) = Ok (Some o))
  /\ (exists w' c',
        run (w, snd (insert c key (Some o))) ins = Some (w', c')
        /\ fst (get w' c' key) = Ok (Some o)).
Proof.
  intros Hcap Hrun Hall Hlen.
  pose proof (run_bookkeeping cap ops (w0, lru_ctor cap) _
                  (ctor_bookkeeping cap) Hrun) as Hb.
  pose proof (run_positions ops (w0, lru_ctor cap) _
                  (ctor_positions cap) Hrun) as Hp.
  cbn [snd] in Hb, Hp. split.
  - intros Hget. destruct (get w c key) as [r c1] eqn:Hg.
    cbn [fst snd] in *. subst r.
    destruct (get_hit_front _ _ _ _ _ Hp Hg) as (n & Hm & Hi & Hidx).
    destruct (inserts_keep_front cap key o n ins w c1 0 Hall
                (get_bookkeeping _ _ _ _ _ _ Hb Hg)
                (get_positions _ _ _ _ _ Hp Hg) Hcap Hm Hi Hidx
                ltac:(lia)) as (w' & c' & Hrun' & Hm' & Hi' & Hin).
    exists w', c'. split; [exact Hrun'|]. eapply get_hit; eauto.
  - pose proof Hb as (Hsz & _).
    pose proof (insert_defined_eq c key (Some o)
                  ltac:(rewrite Hsz; exact Hcap)) as Hins.
    destruct (insert_front c key o Hins) as (Hm & Hi & Hidx).
    destruct (inserts_keep_front cap key o (next_node c) ins w _ 0 Hall
                (insert_bookkeeping _ _ _ _ _ _ Hb Hins)
                (insert_positions _ _ _ _ _ Hp Hins) Hcap Hm Hi Hidx
                ltac:(lia)) as (w' & c' & Hrun' & Hm' & Hi' & Hin).
    exists w', c'. split; [exact Hrun'|]. eapply get_hit; eauto.
Qed.

(** X15 ([insert], [get]; eviction).  On a cache of capacity [cap >= 1],
    after a key was inserted and at least [cap] inserts under other keys
    followed, its node is gone from the list but the key is still in the
    reference map.  A [get] on it then either finds the value dead, returns
    [nullptr] and erases the key from both maps, or, when the value is
    still alive (owned outside the cache or held by another node), passes
    the iterator of the evicted node to [splice]: undefined behaviour. *)
Theorem evicted_key_dangles (cap : N) w0 ops w c key o ins :
  (1 <= cap)%N ->
  run (w0, lru_ctor cap) ops = Some (w, c) ->
  Forall (inserts_other key) ins ->
  (cap <= N.of_nat (length ins))%N ->
  exists w' c',
    run (w, snd (insert c key (Some o))) ins = Some (w', c')
    /\ ext w' = ext w
    /\ m_map c' !! key = Some (Some o)
    /\ (alive w' c' o = true -> fst (get w' c' key) = Undefined)
    /\ (alive w' c' o = false ->
        fst (get w' c' key) = Ok None
        /\ m_map (snd (get w' c' key)) !! key = None
        /\ m_iter_map (snd (get w' c' key)) !! key = None).
Proof.
  intros Hcap Hrun Hall Hlen.
  pose proof (run_bookkeeping cap ops (w0, lru_ctor cap) _
                  (ctor_bookkeeping cap) Hrun) as Hb.
  pose proof (run_positions ops (w0, lru_ctor cap) _
                  (ctor_positions cap) Hrun) as Hp.
  cbn [snd] in Hb, Hp. pose proof Hb as (Hsz & _).
  pose proof (insert_defined_eq c key (Some o)
                ltac:(rewrite Hsz; exact Hcap)) as Hins.
  destruct (insert_front c key o Hins) as (Hm & Hi & Hidx).
  destruct (inserts_evict_front cap key o (next_node c) ins w _ 0 Hall
              (insert_bookkeeping _ _ _ _ _ _ Hb Hins)
              (insert_positions _ _ _ _ _ Hp Hins) Hcap Hm Hi Hidx
              ltac:(lia))
    as (w' & c' & Hrun' & Hext & Hm' & Hi' & Hgone).
  exists w', c'. do 3 (split; [assumption|]).
  unfold get. rewrite Hm'. cbn [lock]. split; intros ->.
  - rewrite Hi'. unfold splice_front.
    destruct (list_find _ _) as [[i [n p]]|] eqn:Hf; [|reflexivity].
    apply list_find_Some in Hf as (Hl & Hn & _). cbn in Hn. subst n.
    exfalso. apply Hgone.
    apply list_elem_of_fmap. exists (next_node c, p).
    split; [reflexivity|]. eapply list_elem_of_lookup_2, Hl.
  - cbn. now rewrite !lookup_delete_eq.
Qed.

End WithKey.

(** ** The scripts of the tests *)

Lemma fresh_keys_overflow_witness :
  exists w c,
    run (world0, lru_ctor (Key:=Z) 2) (OInsertValue <$> [1; 2; 3])
    = Some (w, c)
    /\ fst (get w c 1) = Ok None
    /\ fst (get w c 2) = Ok (Some 1%nat)
    /\ fst (get w c 3) = Ok (Some 2%nat).
Proof.
  assert (Hcap : (1 <= 2)%N) by (vm_compute; congruence).
  assert (Hnd : NoDup ([1; 2; 3] : list Z))
    by (repeat (apply NoDup_cons_2; [rewrite ?elem_of_cons, elem_of_nil; lia|]);
        apply NoDup_nil_2).
  assert (Hext : forall o, (next_obj world0 <= o)%nat
                           -> ext world0 o = 0%nat) by reflexivity.
  destruct (fresh_keys_overflow 2 world0 [1; 2; 3] Hcap Hnd Hext)
    as (w & c & Hrun & _ & Hget).
  exists w, c. split; [exact Hrun|].
  split; [exact (Hget 0%nat 1 eq_refl)|].
  split; [exact (Hget 1%nat 2 eq_refl)|exact (Hget 2%nat 3 eq_refl)].
Defined.

Lemma get_keeps_nodes_and_repeats_witness :
  let c := snd (insert (snd (insert (lru_ctor (Key:=Z) 2) 1 (Some 10%nat)))
                       2 (Some 20%nat)) in
  get world0 (snd (get world0 c 1)) 1
  = (Ok (Some 10%nat), snd (get world0 c 1)).
Proof.
  intros c.
  assert (Hget : get world0 c 1 = (Ok (Some 10%nat), snd (get world0 c 1)))
    by reflexivity.
  exact (proj2 (proj2 (proj2 (proj2
           (get_keeps_nodes_and_repeats world0 c 1 _ _ Hget))))).
Defined.

Lemma used_key_survives_inserts_witness :
  exists w c,
    run (world0, lru_ctor (Key:=Z) 2) [OInsertValue 1; OInsertValue 2]
    = Some (w, c)
    /\ fst (get w c 1) = Ok (Some 0%nat)
    /\ exists w' c',
         run (w, snd (get w c 1)) [OInsertValue 3] = Some (w', c')
         /\ fst (get w' c' 1) = Ok (Some 0%nat).
Proof.
  eexists _, _. split; [vm_compute; reflexivity|].
  match goal with
  | |- fst (get ?w ?c _) = _ /\ _ =>
    assert (Hrun : run (world0, lru_ctor (Key:=Z) 2)
                     [OInsertValue 1; OInsertValue 2]
                   = Some (w, c)) by (vm_compute; reflexivity);
    assert (Hget : fst (get w c 1) = Ok (Some 0%nat)) by reflexivity
  end.
  assert (Hcap : (1 <= 2)%N) by (vm_compute; congruence).
  assert (Hall : Forall (inserts_other (1 : Z)) [OInsertValue 3]).
  { constructor; [cbn; discriminate|constructor]. }
  assert (Hlen : (N.of_nat (length [OInsertValue (3 : Z)]) < 2)%N)
    by reflexivity.
  split; [exact Hget|].
  exact (proj1 (used_key_survives_inserts 2 _ _ _ _ 1 0%nat _
                  Hcap Hrun Hall Hlen) Hget).
Defined.

Lemma evicted_key_dangles_witness :
  let w := acquire 10%nat world0 in
  exists w' c',
    run (w, snd (insert (lru_ctor (Key:=Z) 1) 1 (Some 10%nat)))
        [OInsertValue 2]
    = Some (w', c')
    /\ m_map c' !! 1 = Some (Some 10%nat)
    /\ (alive w' c' 10%nat = true -> fst (get w' c' 1) = Undefined).
Proof.
  intros w.
  assert (Hcap : (1 <= 1)%N) by (vm_compute; congruence).
  assert (Hrun : run (w, lru_ctor (Key:=Z) 1) [] = Some (w, lru_ctor 1))
    by reflexivity.
  assert (Hall : Forall (inserts_other (1 : Z)) [OInsertValue 2]).
  { constructor; [cbn; discriminate|constructor]. }
  assert (Hlen : (1 <= N.of_nat (length [OInsertValue (2 : Z)]))%N)
    by (vm_compute; congruence).
  destruct (evicted_key_dangles 1 _ _ _ _ 1 10%nat _ Hcap Hrun Hall Hlen)
    as (w' & c' & Hrun' & _ & Hm & Hub & _).
  exists w', c'. auto.
Defined.

End LruScripts.
